(** * py-serial: the codec core ([core/encoding_handler.py])

    A shallow embedding of the stateful incremental decoder
    [EncodingHandler] and of the stateless converters [bytes_to_hex],
    [hex_to_bytes] and [text_to_bytes], with the properties the
    specification states about them.

    Conventions.
    - Python [bytes] is [list byte]; the numeric value of a byte is
      [byte.unsigned] (coqutil).
    - Python [str] is a list of Unicode code points ([list Z]); string
      literals of the source are written [lit "..."].
    - Encoding names (the argument of [codecs.lookup]) are [string]s.
    - A call that may raise returns a [result]; a method that mutates
      [self] returns the new object next to its result. *)

From Stdlib Require Import String Ascii ZArith List Bool Lia PeanoNat.
From coqutil Require Import Byte.
Import ListNotations.
Import Stdlib.Init.Byte.

Local Open Scope Z_scope.

(** ** Python values *)

Definition bytes := list byte.
Definition str := list Z.

Definition ord (a : ascii) : Z := Z.of_N (N_of_ascii a).
Definition lit (s : string) : str := map ord (list_ascii_of_string s).

Inductive exn : Set :=
| LookupError
| ValueError
| UnicodeDecodeError
| UnicodeEncodeError.

Inductive result (A : Type) : Type :=
| Ok (a : A)
| Raise (e : exn).
Arguments Ok {A} a.
Arguments Raise {A} e.

Definition bind {A B} (r : result A) (k : A -> result B) : result B :=
  match r with
  | Ok a => k a
  | Raise e => Raise e
  end.

Notation "x <- r ;; k" := (bind r (fun x => k))
  (at level 61, r at next level, right associativity).

(** ** Hex <-> bytes *)

Module Hex.

(** The digit the format specifier [X] prints for a nibble. *)
Definition hex_digit (n : Z) : Z :=
  if n <? 10 then 48 + n else 55 + n.

(** [f'{b:02X}'] for an element [b] of a [bytes] object. *)
Definition format_02X (b : byte) : str :=
  let v := byte.unsigned b in
  [hex_digit (v / 16); hex_digit (v mod 16)].

(** [sep.join(parts)]. *)
Fixpoint join (sep : str) (parts : list str) : str :=
  match parts with
  | [] => []
  | [p] => p
  | p :: rest => p ++ sep ++ join sep rest
  end.

(** [' '.join(f'{b:02X}' for b in data) + ' ' if data else ''] *)
Definition bytes_to_hex (data : bytes) : str :=
  match data with
  | [] => []
  | _ => join (lit " ") (map format_02X data) ++ lit " "
  end.

(** Membership in the character class [[A-Fa-f0-9]]. *)
Definition is_hex_char (c : Z) : bool :=
  ((48 <=? c) && (c <=? 57)) ||
  ((65 <=? c) && (c <=? 70)) ||
  ((97 <=? c) && (c <=? 102)).

(** [re.sub(r'[^A-Fa-f0-9]', '', hex_str)] *)
Definition re_sub_non_hex (hex_str : str) : str :=
  filter is_hex_char hex_str.

(** Value of one base-16 digit, [None] for any other character. *)
Definition digit16 (c : Z) : option Z :=
  if (48 <=? c) && (c <=? 57) then Some (c - 48)
  else if (65 <=? c) && (c <=? 70) then Some (c - 55)
  else if (97 <=? c) && (c <=? 102) then Some (c - 87)
  else None.

(** [int(s, 16)] on the strings the loop of [hex_to_bytes] builds:
    a non-empty run of base-16 digits is its value, anything else is
    the [ValueError] the loop catches. (Signs, prefixes, underscores
    and white space, which [int] also understands, cannot occur in a
    slice of [clean_str].) *)
Fixpoint int16_acc (acc : Z) (s : str) : option Z :=
  match s with
  | [] => Some acc
  | c :: rest =>
      match digit16 c with
      | Some d => int16_acc (16 * acc + d) rest
      | None => None
      end
  end.

Definition int16 (s : str) : option Z :=
  match s with
  | [] => None
  | _ => int16_acc 0 s
  end.

(** [s[i:j]] for [0 <= i <= j]. *)
Definition slice (s : str) (i j : nat) : str :=
  firstn (j - i) (skipn i s).

(** [range(0, n, 2)] *)
Definition range_by_2 (n : nat) : list nat :=
  map (fun k => (2 * k)%nat) (seq 0 (Nat.div2 (n + 1))).

(** [bytes(result)]: every element must lie in [range(256)]. *)
Fixpoint to_bytes (ints : list Z) : result bytes :=
  match ints with
  | [] => Ok []
  | v :: rest =>
      if (0 <=? v) && (v <? 256)
      then bs <- to_bytes rest ;; Ok (byte.of_Z v :: bs)
      else Raise ValueError
  end.

Definition hex_to_bytes (hex_str : str) : result bytes :=
  let clean_str := re_sub_non_hex hex_str in
  match clean_str with
  | [] => Ok []
  | _ =>
      let clean_str :=
        if negb (Nat.eqb (length clean_str mod 2) 0)
        then clean_str ++ lit "0"
        else clean_str in
      let result :=
        fold_left
          (fun result i =>
             let byte_str := slice clean_str i (i + 2) in
             match int16 byte_str with
             | Some v => result ++ [v]
             | None => result
             end)
          (range_by_2 (length clean_str)) [] in
      to_bytes result
  end.

(** The parser as the specification words it: keep the base-16 digits,
    pad an odd count with one ['0'], read the digits two by two. *)
Definition nibble (c : Z) : Z :=
  match digit16 c with
  | Some d => d
  | None => 0
  end.

Fixpoint parse_pairs (digits : str) : bytes :=
  match digits with
  | hi :: lo :: rest => byte.of_Z (16 * nibble hi + nibble lo) :: parse_pairs rest
  | _ => []
  end.

Definition pad_odd (digits : str) : str :=
  if Nat.odd (length digits) then digits ++ lit "0" else digits.

Definition hex_to_bytes_spec (hex_str : str) : bytes :=
  parse_pairs (pad_odd (filter is_hex_char hex_str)).

(** The body of the loop of [hex_to_bytes], and the values it appends
    over a string of digit pairs. *)
Definition loop_body (clean_str : str) (result : list Z) (i : nat) : list Z :=
  match int16 (slice clean_str i (i + 2)) with
  | Some v => result ++ [v]
  | None => result
  end.

Fixpoint pair_values (digits : str) : list Z :=
  match digits with
  | hi :: lo :: rest => (16 * nibble hi + nibble lo) :: pair_values rest
  | _ => []
  end.

End Hex.

(** ** The codecs of the Python runtime

    [EncodingHandler] delegates to [codecs.getincrementaldecoder] and
    [bytes.decode]; [text_to_bytes] to [str.encode]. The two supported
    codecs are embedded here after CPython: UTF-8 after
    [stringlib/codecs.h] ([utf8_decode], [utf8_encoder]) and
    [unicode_decode_utf8]; GBK after [cjkcodecs/_codecs_cn.c] and
    [cjkcodecs/multibytecodec.c]. The GBK mapping tables are data of the
    runtime and are taken as parameters. *)

Class GbkTables : Type := {
  (** [TRYMAP_DEC(gb2312, _, c1, c2)] *)
  gb2312_decmap : Z -> Z -> option Z;
  (** [TRYMAP_DEC(gbkext, _, c1, c2)] *)
  gbkext_decmap : Z -> Z -> option Z;
  (** [TRYMAP_ENC(gbcommon, _, c)], a 16-bit code *)
  gbcommon_encmap : Z -> option Z
}.

Inductive codec : Set := Utf8 | Gbk.

Inductive errors : Set := Strict | Ignore | Replace.

(** What a decoder finds at the current input position. *)
Inductive unit_result : Set :=
| Char (cp : Z) (n : nat)   (* one character, encoded in [n] bytes *)
| Invalid (n : nat)         (* an error over [n] bytes, for the error handler *)
| Incomplete.               (* stop: the remaining bytes are kept for later *)

Definition REPLACEMENT_CHARACTER : Z := 0xFFFD.

(** A result that consumes input consumes one byte at least and no more
    than there are. *)
Definition units_ok (s : bytes) (r : unit_result) : Prop :=
  match r with
  | Char _ n | Invalid n => (1 <= n <= length s)%nat
  | Incomplete => True
  end.

Module UTF8.

(** Return codes of [utf8_decode] at one position. *)
Inductive scan : Set :=
| Decoded (ch : Z) (n : nat)
| EndOfData                          (* 0 *)
| InvalidStart                       (* 1 *)
| InvalidContinuation (k : nat).     (* 1 + k, k = 1, 2, 3 *)

Definition IS_CONTINUATION_BYTE (ch : Z) : bool :=
  (0x80 <=? ch) && (ch <? 0xC0).

Definition utf8_decode (s : bytes) : scan :=
  match s with
  | [] => EndOfData
  | b :: s1 =>
    let ch := byte.unsigned b in
    if ch <? 0x80 then Decoded ch 1
    else if ch <? 0xE0 then
      if ch <? 0xC2 then InvalidStart
      else
        match s1 with
        | [] => EndOfData
        | b2 :: _ =>
          let ch2 := byte.unsigned b2 in
          if negb (IS_CONTINUATION_BYTE ch2) then InvalidContinuation 1
          else Decoded (Z.shiftl ch 6 + ch2 - (Z.shiftl 0xC0 6 + 0x80)) 2
        end
    else if ch <? 0xF0 then
      match s1 with
      | [] => EndOfData
      | [b2] =>
        let ch2 := byte.unsigned b2 in
        if negb (IS_CONTINUATION_BYTE ch2)
           || (if ch2 <? 0xA0 then ch =? 0xE0 else ch =? 0xED)
        then InvalidContinuation 1
        else EndOfData
      | b2 :: b3 :: _ =>
        let ch2 := byte.unsigned b2 in
        let ch3 := byte.unsigned b3 in
        if negb (IS_CONTINUATION_BYTE ch2) then InvalidContinuation 1
        else if (ch =? 0xE0) && (ch2 <? 0xA0) then InvalidContinuation 1
        else if (ch =? 0xED) && (0xA0 <=? ch2) then InvalidContinuation 1
        else if negb (IS_CONTINUATION_BYTE ch3) then InvalidContinuation 2
        else Decoded (Z.shiftl ch 12 + Z.shiftl ch2 6 + ch3
                      - (Z.shiftl 0xE0 12 + Z.shiftl 0x80 6 + 0x80)) 3
      end
    else if ch <? 0xF5 then
      match s1 with
      | [] => EndOfData
      | [b2] =>
        let ch2 := byte.unsigned b2 in
        if negb (IS_CONTINUATION_BYTE ch2)
           || (if ch2 <? 0x90 then ch =? 0xF0 else ch =? 0xF4)
        then InvalidContinuation 1
        else EndOfData
      | [b2; b3] =>
        let ch2 := byte.unsigned b2 in
        let ch3 := byte.unsigned b3 in
        if negb (IS_CONTINUATION_BYTE ch2)
           || (if ch2 <? 0x90 then ch =? 0xF0 else ch =? 0xF4)
        then InvalidContinuation 1
        else if negb (IS_CONTINUATION_BYTE ch3) then InvalidContinuation 2
        else EndOfData
      | b2 :: b3 :: b4 :: _ =>
        let ch2 := byte.unsigned b2 in
        let ch3 := byte.unsigned b3 in
        let ch4 := byte.unsigned b4 in
        if negb (IS_CONTINUATION_BYTE ch2) then InvalidContinuation 1
        else if (ch =? 0xF0) && (ch2 <? 0x90) then InvalidContinuation 1
        else if (ch =? 0xF4) && (0x90 <=? ch2) then InvalidContinuation 1
        else if negb (IS_CONTINUATION_BYTE ch3) then InvalidContinuation 2
        else if negb (IS_CONTINUATION_BYTE ch4) then InvalidContinuation 3
        else Decoded (Z.shiftl ch 18 + Z.shiftl ch2 12 + Z.shiftl ch3 6 + ch4
                      - (Z.shiftl 0xF0 18 + Z.shiftl 0x80 12
                         + Z.shiftl 0x80 6 + 0x80)) 4
      end
    else InvalidStart
  end.

(** The test of [unicode_decode_utf8] (CPython 3.8 and later) for a
    truncated surrogate, which a non-final call keeps for later:
    [s[0] == 0xED && end - s == 2 && 0xA0 <= s[1] <= 0xBF]. *)
Definition truncated_surrogate (s : bytes) : bool :=
  match s with
  | [b; b2] =>
    (byte.unsigned b =? 0xED)
    && (0xA0 <=? byte.unsigned b2) && (byte.unsigned b2 <=? 0xBF)
  | _ => false
  end.

(** The [switch (ch)] of [unicode_decode_utf8]; [final = false] is a call
    with a [consumed] pointer. *)
Definition step (final : bool) (s : bytes) : unit_result :=
  match utf8_decode s with
  | Decoded ch n => Char ch n
  | EndOfData => if final then Invalid (length s) else Incomplete
  | InvalidStart => Invalid 1
  | InvalidContinuation 1 =>
    if negb final && truncated_surrogate s then Incomplete else Invalid 1
  | InvalidContinuation k => Invalid k
  end.

Definition IS_SURROGATE (ch : Z) : bool :=
  (0xD800 <=? ch) && (ch <=? 0xDFFF).

(** One character of [utf8_encoder]: [None] is the call of the error
    handler, made for surrogates only. *)
Definition encode_step (ch : Z) : option bytes :=
  if ch <? 0x80 then Some [byte.of_Z ch]
  else if ch <? 0x0800 then
    Some [byte.of_Z (Z.lor 0xC0 (Z.shiftr ch 6));
          byte.of_Z (Z.lor 0x80 (Z.land ch 0x3F))]
  else if IS_SURROGATE ch then None
  else if ch <? 0x10000 then
    Some [byte.of_Z (Z.lor 0xE0 (Z.shiftr ch 12));
          byte.of_Z (Z.lor 0x80 (Z.land (Z.shiftr ch 6) 0x3F));
          byte.of_Z (Z.lor 0x80 (Z.land ch 0x3F))]
  else
    Some [byte.of_Z (Z.lor 0xF0 (Z.shiftr ch 18));
          byte.of_Z (Z.lor 0x80 (Z.land (Z.shiftr ch 12) 0x3F));
          byte.of_Z (Z.lor 0x80 (Z.land (Z.shiftr ch 6) 0x3F));
          byte.of_Z (Z.lor 0x80 (Z.land ch 0x3F))].

End UTF8.

Module GBK.
Section WithTables.
Context {tables : GbkTables}.

(** [GBK_DECODE(dc1, dc2, writer)] *)
Definition GBK_DECODE (dc1 dc2 : Z) : option Z :=
  if (dc1 =? 0xa1) && (dc2 =? 0xaa) then Some 0x2014
  else if (dc1 =? 0xa8) && (dc2 =? 0x44) then Some 0x2015
  else if (dc1 =? 0xa1) && (dc2 =? 0xa4) then Some 0x00b7
  else
    match gb2312_decmap (Z.lxor dc1 0x80) (Z.lxor dc2 0x80) with
    | Some decoded => Some decoded
    | None => gbkext_decmap dc1 dc2
    end.

(** One round of [DECODER(gbk)] with the reaction of
    [multibytecodec.c] to its return value: [MBERR_TOOFEW] ends a
    non-final call and is an error over the whole rest in a final one. *)
Definition step (final : bool) (s : bytes) : unit_result :=
  match s with
  | [] => Incomplete
  | b :: s1 =>
    let c := byte.unsigned b in
    if c <? 0x80 then Char c 1
    else
      match s1 with
      | [] => if final then Invalid (length s) else Incomplete
      | b2 :: _ =>
        match GBK_DECODE c (byte.unsigned b2) with
        | Some decoded => Char decoded 2
        | None => Invalid 1
        end
      end
  end.

(** [GBK_ENCODE(code, assi)] *)
Definition GBK_ENCODE (code : Z) : option Z :=
  if code =? 0x2014 then Some 0xa1aa
  else if code =? 0x2015 then Some 0xa844
  else if code =? 0x00b7 then Some 0xa1a4
  else if negb (code =? 0x30fb) then gbcommon_encmap code
  else None.

(** One round of [ENCODER(gbk)]: [None] is [return 1]. *)
Definition encode_step (c : Z) : option bytes :=
  if c <? 0x80 then Some [byte.of_Z c]
  else if 0xFFFF <? c then None
  else
    match GBK_ENCODE c with
    | Some code =>
      Some [byte.of_Z (Z.lor (Z.shiftr code 8) 0x80);
            if Z.testbit code 15
            then byte.of_Z (Z.land code 0xFF)
            else byte.of_Z (Z.lor (Z.land code 0xFF) 0x80)]
    | None => None
    end.

End WithTables.
End GBK.

(** ** [codecs]: lookup, incremental decoders, [bytes.decode], [str.encode] *)

(** [str.lower()] on an encoding name (characters below U+0100). *)
Definition lower_char (a : ascii) : ascii :=
  let n := nat_of_ascii a in
  if ((65 <=? n) && (n <=? 90))%nat
     || ((192 <=? n) && (n <=? 222) && negb (n =? 215))%nat
  then ascii_of_nat (n + 32)
  else a.

Fixpoint lower (s : string) : string :=
  match s with
  | EmptyString => EmptyString
  | String a rest => String (lower_char a) (lower rest)
  end.

(** [codecs.lookup], for the names under which the program reaches the
    two supported codecs: ['gbk'] (the default of the constructor and
    the combo-box entry), ['utf8'] (the combo-box entry ['UTF-8'] with
    its hyphen removed by the window) and the spellings ['utf-8'] and
    ['utf_8']. The runtime knows more spellings and more codecs; they
    are outside this embedding, which answers [LookupError] for them,
    and no statement below depends on that answer. *)
Definition lookup (encoding : string) : result codec :=
  let name := lower encoding in
  if String.eqb name "gbk" then Ok Gbk
  else if String.eqb name "utf8" || String.eqb name "utf-8"
          || String.eqb name "utf_8" then Ok Utf8
  else Raise LookupError.

Section Codecs.
Context {tables : GbkTables}.

Definition decode_step (c : codec) : bool -> bytes -> unit_result :=
  match c with
  | Utf8 => UTF8.step
  | Gbk => GBK.step
  end.

(** The decoding loop shared by both codecs: characters are written,
    errors go to the error handler ([strict] raises, [ignore] resumes
    after the bytes in error, [replace] writes U+FFFD and resumes), an
    incomplete tail ends the loop. Returns the text and the bytes not
    consumed. [fuel] bounds the rounds; every round that continues
    consumes a byte, so [length s] rounds are enough. *)
Fixpoint decode_loop (step : bytes -> unit_result) (err : errors)
    (fuel : nat) (s : bytes) : result (str * bytes) :=
  match s, fuel with
  | [], _ => Ok ([], [])
  | _, O => Ok ([], s)
  | _, S fuel' =>
    match step s with
    | Char cp n =>
      r <- decode_loop step err fuel' (skipn n s) ;;
      Ok (cp :: fst r, snd r)
    | Invalid n =>
      match err with
      | Strict => Raise UnicodeDecodeError
      | Ignore => decode_loop step err fuel' (skipn n s)
      | Replace =>
        r <- decode_loop step err fuel' (skipn n s) ;;
        Ok (REPLACEMENT_CHARACTER :: fst r, snd r)
      end
    | Incomplete => Ok ([], s)
    end
  end.

(** The loop with the fuel it needs. *)
Definition run_loop (step : bytes -> unit_result) (err : errors) (s : bytes)
    : result (str * bytes) :=
  decode_loop step err (length s) s.

(** [_buffer_decode(data, errors, final)]: text and unconsumed rest. *)
Definition buffer_decode (c : codec) (err : errors) (final : bool)
    (data : bytes) : result (str * bytes) :=
  run_loop (decode_step c final) err data.

(** An incremental decoder object: its codec, its [errors] argument and
    the bytes it holds back ([self.buffer], [pending]). *)
Record IncrementalDecoder : Type := {
  dec_codec : codec;
  dec_errors : errors;
  dec_buffer : bytes
}.

(** [codecs.getincrementaldecoder(encoding)(errors)] *)
Definition getincrementaldecoder (encoding : string) (err : errors)
    : result IncrementalDecoder :=
  c <- lookup encoding ;;
  Ok {| dec_codec := c; dec_errors := err; dec_buffer := [] |}.

(** [decoder.decode(input, final)]: the held bytes are put in front of
    the input; what is not consumed is held. A raise leaves the object
    as it was. *)
Definition incremental_decode (d : IncrementalDecoder) (input : bytes)
    (final : bool) : result (str * IncrementalDecoder) :=
  let data := dec_buffer d ++ input in
  r <- buffer_decode (dec_codec d) (dec_errors d) final data ;;
  Ok (fst r, {| dec_codec := dec_codec d; dec_errors := dec_errors d;
                dec_buffer := snd r |}).

(** [data.decode(encoding, errors=...)] *)
Definition bytes_decode (data : bytes) (encoding : string) (err : errors)
    : result str :=
  c <- lookup encoding ;;
  r <- buffer_decode c err true data ;;
  Ok (fst r).

Definition encode_step (c : codec) : Z -> option bytes :=
  match c with
  | Utf8 => UTF8.encode_step
  | Gbk => GBK.encode_step
  end.

(** The encoding loop: an unencodable character raises under [strict],
    is left out under [ignore] and becomes ['?'] under [replace]. *)
Fixpoint encode_loop (c : codec) (err : errors) (text : str) : result bytes :=
  match text with
  | [] => Ok []
  | ch :: rest =>
    match encode_step c ch with
    | Some bs => out <- encode_loop c err rest ;; Ok (bs ++ out)
    | None =>
      match err with
      | Strict => Raise UnicodeEncodeError
      | Ignore => encode_loop c err rest
      | Replace => out <- encode_loop c err rest ;; Ok (byte.of_Z 63 :: out)
      end
    end
  end.

(** [text.encode(encoding, errors=...)] *)
Definition str_encode (text : str) (encoding : string) (err : errors)
    : result bytes :=
  c <- lookup encoding ;;
  encode_loop c err text.

End Codecs.

(** ** [class EncodingHandler] *)

Record EncodingHandler : Type := {
  _encoding : string;
  _decoder : IncrementalDecoder
}.

Module Handler.
Section Methods.
Context {tables : GbkTables}.

(** [__init__(self, encoding='gbk')] *)
Definition init (encoding : string) : result EncodingHandler :=
  let enc := lower encoding in
  d <- getincrementaldecoder enc Ignore ;;
  Ok {| _encoding := enc; _decoder := d |}.

(** The getter of the [encoding] property. *)
Definition encoding (self : EncodingHandler) : string := _encoding self.

(** [reset(self)]: a raise of the lookup leaves the decoder in place. *)
Definition reset (self : EncodingHandler) : result unit * EncodingHandler :=
  match getincrementaldecoder (_encoding self) Ignore with
  | Ok d => (Ok tt, {| _encoding := _encoding self; _decoder := d |})
  | Raise e => (Raise e, self)
  end.

(** The setter of the [encoding] property. *)
Definition set_encoding (self : EncodingHandler) (value : string)
    : result unit * EncodingHandler :=
  let new_encoding := lower value in
  if negb (String.eqb new_encoding (_encoding self))
  then reset {| _encoding := new_encoding; _decoder := _decoder self |}
  else (Ok tt, self).

(** [decode(self, data, final=False)] *)
Definition decode (self : EncodingHandler) (data : bytes) (final : bool)
    : result str * EncodingHandler :=
  match incremental_decode (_decoder self) data final with
  | Ok (text, d) => (Ok text, {| _encoding := _encoding self; _decoder := d |})
  | Raise _ =>
    match reset self with
    | (Ok _, self') => (bytes_decode data (_encoding self') Replace, self')
    | (Raise e, self') => (Raise e, self')
    end
  end.

End Methods.
End Handler.

Section TextToBytes.
Context {tables : GbkTables}.

Definition text_to_bytes (text : str) (encoding : string) : result bytes :=
  match str_encode text (lower encoding) Strict with
  | Ok data => Ok data
  | Raise _ => str_encode text (lower encoding) Replace
  end.

End TextToBytes.

(** An excerpt of the runtime's GBK tables, enough for the characters
    of the examples: U+6D4B (B2 E2) and U+8BD5 (CA D4). *)
Definition excerpt : GbkTables := {|
  gb2312_decmap := fun c1 c2 =>
    if (c1 =? 0x32) && (c2 =? 0x62) then Some 0x6D4B
    else if (c1 =? 0x4A) && (c2 =? 0x54) then Some 0x8BD5
    else None;
  gbkext_decmap := fun _ _ => None;
  gbcommon_encmap := fun c =>
    if c =? 0x6D4B then Some 0x3262
    else if c =? 0x8BD5 then Some 0x4A54
    else None
|}.

(** ** Notions used in the statements *)

Section Notions.
Context {tables : GbkTables}.

(** The bytes the decoder of a handler holds back, and its codec. *)
Definition carry (h : EncodingHandler) : bytes := dec_buffer (_decoder h).
Definition active_codec (h : EncodingHandler) : codec := dec_codec (_decoder h).

(** The object [EncodingHandler(encoding)] builds for a supported name. *)
Definition fresh (encoding : string) (c : codec) : EncodingHandler :=
  {| _encoding := lower encoding;
     _decoder := {| dec_codec := c; dec_errors := Ignore; dec_buffer := [] |} |}.

(** [h] with other bytes held by its decoder. *)
Definition with_carry (h : EncodingHandler) (held : bytes) : EncodingHandler :=
  {| _encoding := _encoding h;
     _decoder := {| dec_codec := dec_codec (_decoder h);
                    dec_errors := dec_errors (_decoder h);
                    dec_buffer := held |} |}.

(** Calls on a handler, and the texts a sequence of calls returns. *)
Inductive call : Type :=
| Decode (data : bytes) (final : bool)
| SetEncoding (value : string)
| Reset.

Fixpoint outputs (h : EncodingHandler) (calls : list call) : list (result str) :=
  match calls with
  | [] => []
  | Decode data final :: rest =>
    let (r, h') := Handler.decode h data final in r :: outputs h' rest
  | SetEncoding value :: rest => outputs (snd (Handler.set_encoding h value)) rest
  | Reset :: rest => outputs (snd (Handler.reset h)) rest
  end.

(** [s] is the encoding of exactly one character. *)
Definition well_formed (c : codec) (s : bytes) : Prop :=
  exists cp, decode_step c true s = Char cp (length s).

(** Some run of consecutive bytes of [buf] is a complete character. *)
Definition contains_character (c : codec) (buf : bytes) : Prop :=
  exists pre mid post, buf = pre ++ mid ++ post /\ well_formed c mid.

(** [buf] is the beginning, and not the whole, of a multi-byte
    character. *)
Definition proper_prefix_of_character (c : codec) (buf : bytes) : Prop :=
  exists ext, ext <> [] /\ well_formed c (buf ++ ext).

(** The decoder, asked about [buf] alone, does not decide yet. *)
Definition unresolved (c : codec) (buf : bytes) : Prop :=
  buf = [] \/ decode_step c false buf = Incomplete.

(** The invariant of the carry buffer as the specification words it. *)
Definition carry_invariant_spec (h : EncodingHandler) : Prop :=
  (length (carry h) <= 3)%nat
  /\ ~ contains_character (active_codec h) (carry h)
  /\ (carry h = [] \/ proper_prefix_of_character (active_codec h) (carry h)).

(** A weaker form of the invariant, in terms of the decoder alone. *)
Definition carry_invariant (h : EncodingHandler) : Prop :=
  (length (carry h) <= 3)%nat
  /\ ~ contains_character (active_codec h) (carry h)
  /\ unresolved (active_codec h) (carry h).

(** The tails the runtime's decoders hold although no character begins
    with them: under UTF-8 the first two bytes of an encoded surrogate
    (ED, then A0 to BF); under GBK a byte of 0x80 or more with which no
    two-byte character of the tables begins. *)
Definition held_without_character (c : codec) (buf : bytes) : Prop :=
  match c with
  | Utf8 =>
    exists b0 b1,
      buf = [b0; b1] /\ byte.unsigned b0 = 0xED
      /\ 0xA0 <= byte.unsigned b1 <= 0xBF
  | Gbk =>
    exists b,
      buf = [b] /\ 0x80 <= byte.unsigned b
      /\ forall b2, GBK.GBK_DECODE (byte.unsigned b) (byte.unsigned b2) = None
  end.

(** The invariant the code keeps: the specification's, with those two
    tails let in. *)
Definition carry_invariant_kept (h : EncodingHandler) : Prop :=
  (length (carry h) <= 3)%nat
  /\ ~ contains_character (active_codec h) (carry h)
  /\ (carry h = []
      \/ proper_prefix_of_character (active_codec h) (carry h)
      \/ held_without_character (active_codec h) (carry h)).

(** Every byte. *)
Definition all_bytes : list byte :=
  map (fun n => byte.of_Z (Z.of_nat n)) (seq 0 256).

(** Bytes that complete an unresolved UTF-8 tail to a character: the
    least second byte the lead byte admits, then 0x80s. *)
Definition second_byte (lead : Z) : byte :=
  if lead =? 0xE0 then xa0 else if lead =? 0xF0 then x90 else x80.

Definition completion (s : bytes) : bytes :=
  match s with
  | [b0] =>
    let lead := byte.unsigned b0 in
    if lead <? 0xE0 then [x80]
    else if lead <? 0xF0 then [second_byte lead; x80]
    else [second_byte lead; x80; x80]
  | [b0; _] => if byte.unsigned b0 <? 0xF0 then [x80] else [x80; x80]
  | _ => [x80]
  end.

End Notions.

(** The length the UTF-8 layout gives a code point, surrogates
    included: what [utf8_encoder] writes when the character is
    representable. *)
Definition utf8_layout_length (ch : Z) : nat :=
  if ch <? 0x80 then 1
  else if ch <? 0x0800 then 2
  else if ch <? 0x10000 then 3
  else 4.

(** What [replace] makes of one character. *)
Definition encode_or_substitute {tables : GbkTables} (c : codec) (ch : Z) : bytes :=
  match encode_step c ch with
  | Some bs => bs
  | None => [byte.of_Z 63]
  end.

(** ** [class MainWindow]: the slots that drive the codec core

    Of the window, the fields the slots below read and write are kept.
    What a slot reads from a widget ([currentText()], [toPlainText()],
    [is_open] of the worker) is an argument; what it hands to a widget
    or to the worker ([insertPlainText], [write_data]) is its result.
    The other widget calls of the slots touch none of these fields. *)

Module Window.

(** ['HEX模式'] and ['文本模式'] *)
Definition HEX_MODE : str := [72; 69; 88; 27169; 24335].
Definition TEXT_MODE : str := [25991; 26412; 27169; 24335].

Definition str_eqb (a b : str) : bool :=
  if list_eq_dec Z.eq_dec a b then true else false.

(** [s.replace('-', '')] *)
Fixpoint remove_hyphens (s : string) : string :=
  match s with
  | EmptyString => EmptyString
  | String a rest =>
    if Ascii.eqb a "-" then remove_hyphens rest
    else String a (remove_hyphens rest)
  end.

Record MainWindow : Type := {
  _encoding_handler : EncodingHandler;
  _receive_mode : str;
  _receive_coding : string;
  _send_mode : str;
  _send_coding : string
}.

Definition set_handler (self : MainWindow) (h : EncodingHandler) : MainWindow :=
  {| _encoding_handler := h;
     _receive_mode := _receive_mode self;
     _receive_coding := _receive_coding self;
     _send_mode := _send_mode self;
     _send_coding := _send_coding self |}.

Section Slots.
Context {tables : GbkTables}.

(** The fields [__init__] sets. *)
Definition init : result MainWindow :=
  h <- Handler.init "gbk" ;;
  Ok {| _encoding_handler := h;
        _receive_mode := HEX_MODE;
        _receive_coding := "GBK";
        _send_mode := HEX_MODE;
        _send_coding := "GBK" |}.

(** [_close_serial_port]: the handler is reset. *)
Definition _close_serial_port (self : MainWindow) : result unit * MainWindow :=
  let (r, h) := Handler.reset (_encoding_handler self) in
  (r, set_handler self h).

(** [_on_receive_mode_changed]; [mode] is the text of the combo box. *)
Definition _on_receive_mode_changed (self : MainWindow) (mode : str)
    : result unit * MainWindow :=
  let self1 :=
    {| _encoding_handler := _encoding_handler self;
       _receive_mode := if str_eqb mode HEX_MODE then HEX_MODE else TEXT_MODE;
       _receive_coding := _receive_coding self;
       _send_mode := _send_mode self;
       _send_coding := _send_coding self |} in
  let (r, h) := Handler.reset (_encoding_handler self1) in
  (r, set_handler self1 h).

(** [_on_receive_coding_changed]; [coding] is the text of the combo box. *)
Definition _on_receive_coding_changed (self : MainWindow) (coding : string)
    : result unit * MainWindow :=
  let self1 :=
    {| _encoding_handler := _encoding_handler self;
       _receive_mode := _receive_mode self;
       _receive_coding := coding;
       _send_mode := _send_mode self;
       _send_coding := _send_coding self |} in
  match Handler.set_encoding (_encoding_handler self1)
          (remove_hyphens (lower coding)) with
  | (Ok _, h) =>
    let (r, h') := Handler.reset h in (r, set_handler self1 h')
  | (Raise e, h) => (Raise e, set_handler self1 h)
  end.

(** [_on_send_mode_changed] *)
Definition _on_send_mode_changed (self : MainWindow) (mode : str) : MainWindow :=
  {| _encoding_handler := _encoding_handler self;
     _receive_mode := _receive_mode self;
     _receive_coding := _receive_coding self;
     _send_mode := if str_eqb mode HEX_MODE then HEX_MODE else TEXT_MODE;
     _send_coding := _send_coding self |}.

(** [_on_send_coding_changed] *)
Definition _on_send_coding_changed (self : MainWindow) (coding : string)
    : MainWindow :=
  {| _encoding_handler := _encoding_handler self;
     _receive_mode := _receive_mode self;
     _receive_coding := _receive_coding self;
     _send_mode := _send_mode self;
     _send_coding := coding |}.

(** [_on_data_received]: the text given to [insertPlainText]. *)
Definition _on_data_received (self : MainWindow) (data : bytes)
    : result str * MainWindow :=
  if str_eqb (_receive_mode self) HEX_MODE
  then (Ok (Hex.bytes_to_hex data), self)
  else
    let (r, h) := Handler.decode (_encoding_handler self) data false in
    (r, set_handler self h).

(** [_on_send_clicked]: the bytes given to [write_data], [None] when
    the slot returns before. *)
Definition _on_send_clicked (self : MainWindow) (is_open : bool) (text : str)
    : result (option bytes) :=
  if negb is_open then Ok None
  else
    match text with
    | [] => Ok None
    | _ =>
      if str_eqb (_send_mode self) HEX_MODE
      then data <- Hex.hex_to_bytes text ;; Ok (Some data)
      else data <- text_to_bytes text (_send_coding self) ;; Ok (Some data)
    end.

(** The texts a run of [data_received] signals inserts, one after the
    other. *)
Fixpoint receive_all (self : MainWindow) (chunks : list bytes)
    : result str * MainWindow :=
  match chunks with
  | [] => (Ok [], self)
  | data :: rest =>
    match _on_data_received self data with
    | (Ok text, self1) =>
      match receive_all self1 rest with
      | (Ok text', self2) => (Ok (text ++ text'), self2)
      | (Raise e, self2) => (Raise e, self2)
      end
    | (Raise e, self1) => (Raise e, self1)
    end
  end.

End Slots.
End Window.

(** ** Further notions *)

(** A Unicode scalar value: a code point that is not a surrogate. *)
Definition is_scalar (ch : Z) : Prop :=
  0 <= ch <= 0x10FFFF /\ (ch < 0xD800 \/ 0xDFFF < ch).

(** The texts of a run of non-final [decode] calls, one after the
    other. *)
Fixpoint decode_all {tables : GbkTables} (h : EncodingHandler)
    (chunks : list bytes) : result str * EncodingHandler :=
  match chunks with
  | [] => (Ok [], h)
  | data :: rest =>
    match Handler.decode h data false with
    | (Ok text, h1) =>
      match decode_all h1 rest with
      | (Ok text', h2) => (Ok (text ++ text'), h2)
      | (Raise e, h2) => (Raise e, h2)
      end
    | (Raise e, h1) => (Raise e, h1)
    end
  end.

(** A handler as the class builds and keeps it: its decoder ignores
    errors and holds an unresolved tail. *)
Definition well_kept {tables : GbkTables} (h : EncodingHandler) : Prop :=
  dec_errors (_decoder h) = Ignore
  /\ unresolved (active_codec h) (carry h).

(** [c.upper()] for the letters [a] to [f]. *)
Definition upper_hex (c : Z) : Z :=
  if (97 <=? c) && (c <=? 102) then c - 32 else c.

(** Sample objects: a UTF-8 handler holding the first byte of U+6D4B,
    the window [__init__] builds, and a window set to text mode and
    UTF-8. *)
Definition holding_e6 : EncodingHandler := with_carry (fresh "utf-8" Utf8) [xe6].

Definition window_at_start : Window.MainWindow :=
  {| Window._encoding_handler := fresh "gbk" Gbk;
     Window._receive_mode := Window.HEX_MODE;
     Window._receive_coding := "GBK";
     Window._send_mode := Window.HEX_MODE;
     Window._send_coding := "GBK" |}.

Definition window_utf8_text : Window.MainWindow :=
  {| Window._encoding_handler := fresh "utf8" Utf8;
     Window._receive_mode := Window.TEXT_MODE;
     Window._receive_coding := "UTF-8";
     Window._send_mode := Window.TEXT_MODE;
     Window._send_coding := "UTF-8" |}.

(** * Properties *)

(** ** Hex conversion *)

Module HexFacts.
Import Hex.

Lemma byte_range (b : byte) : 0 <= byte.unsigned b < 256.
Proof. pose proof (byte.unsigned_range b) as H. change (2 ^ 8) with 256 in H. exact H. Qed.

Ltac split_leb :=
  repeat match goal with
  | |- context [?a <=? ?b] => destruct (Z.leb_spec a b)
  | |- context [?a <? ?b] => destruct (Z.ltb_spec a b)
  | H : context [?a <=? ?b] |- _ => destruct (Z.leb_spec a b)
  | H : context [?a <? ?b] |- _ => destruct (Z.ltb_spec a b)
  end.

Lemma digit16_hex_char (c : Z) :
  is_hex_char c = true -> exists d, digit16 c = Some d /\ 0 <= d < 16.
Proof.
  unfold is_hex_char, digit16. intros H.
  split_leb; try lia; simpl in *; try discriminate.
  all: eexists; split; [reflexivity | ].
  all: lia.
Qed.

Lemma hex_digit_is_hex (n : Z) :
  0 <= n < 16 -> is_hex_char (hex_digit n) = true.
Proof.
  unfold is_hex_char, hex_digit. intros H.
  split_leb; try lia; reflexivity.
Qed.

Lemma digit16_hex_digit (n : Z) :
  0 <= n < 16 -> digit16 (hex_digit n) = Some n.
Proof.
  unfold digit16, hex_digit. intros H.
  split_leb; try lia; cbn [andb]; f_equal; lia.
Qed.

Lemma nibbles_of_byte (b : byte) :
  0 <= byte.unsigned b / 16 < 16 /\ 0 <= byte.unsigned b mod 16 < 16.
Proof.
  pose proof (byte_range b). split.
  - split; [apply Z.div_pos; lia | apply Z.div_lt_upper_bound; lia].
  - apply Z.mod_pos_bound; lia.
Qed.

(** The result of [bytes_to_hex], byte by byte. *)
Lemma bytes_to_hex_flat (data : bytes) :
  bytes_to_hex data = flat_map (fun b => format_02X b ++ lit " ") data.
Proof.
  destruct data as [|b data]; [reflexivity|].
  unfold bytes_to_hex. revert b.
  induction data as [|b' data IH]; intros b.
  - cbn [map join flat_map]. now rewrite app_nil_r.
  - change (flat_map (fun b => format_02X b ++ lit " ") (b :: b' :: data))
      with ((format_02X b ++ lit " ")
            ++ flat_map (fun b => format_02X b ++ lit " ") (b' :: data)).
    rewrite <- (IH b').
    change (join (lit " ") (map format_02X (b :: b' :: data)))
      with (format_02X b ++ lit " " ++ join (lit " ") (map format_02X (b' :: data))).
    rewrite <- !app_assoc. reflexivity.
Qed.

Lemma filter_bytes_to_hex (data : bytes) :
  filter is_hex_char (bytes_to_hex data) = flat_map format_02X data.
Proof.
  rewrite bytes_to_hex_flat.
  induction data as [|b data IH]; [reflexivity|].
  destruct (nibbles_of_byte b) as [Hh Hl].
  cbn [flat_map]. rewrite filter_app, IH. f_equal.
  unfold format_02X. cbn [app filter].
  rewrite (hex_digit_is_hex _ Hh), (hex_digit_is_hex _ Hl). reflexivity.
Qed.

Lemma range_by_2_even (k : nat) :
  range_by_2 (2 * k) = map (fun i => (2 * i)%nat) (seq 0 k).
Proof.
  unfold range_by_2. rewrite Nat.add_1_r, Nat.div2_succ_double. reflexivity.
Qed.

Lemma loop_body_shift (a b : Z) (rest : str) (acc : list Z) (i : nat) :
  loop_body (a :: b :: rest) acc (2 + i) = loop_body rest acc i.
Proof.
  unfold loop_body, slice.
  replace (2 + i + 2 - (2 + i))%nat with (i + 2 - i)%nat by lia.
  reflexivity.
Qed.

Lemma fold_loop_shift (a b : Z) (rest : str) (l : list nat) (acc : list Z) :
  fold_left (loop_body (a :: b :: rest)) (map (fun i => (2 + i)%nat) l) acc
  = fold_left (loop_body rest) l acc.
Proof.
  revert acc. induction l as [|i l IH]; intros acc; [reflexivity|].
  cbn [map fold_left]. rewrite loop_body_shift. apply IH.
Qed.

Lemma fold_loop_pairs (k : nat) :
  forall (p : str) (acc : list Z),
    length p = (2 * k)%nat ->
    Forall (fun c => is_hex_char c = true) p ->
    fold_left (loop_body p) (map (fun i => (2 * i)%nat) (seq 0 k)) acc
    = acc ++ pair_values p.
Proof.
  induction k as [|k IH]; intros p acc Hlen Hhex.
  - destruct p; [|discriminate]. simpl. now rewrite app_nil_r.
  - destruct p as [|a [|b rest]]; try (simpl in Hlen; lia).
    inversion Hhex as [|? ? Ha Hrest]; subst.
    inversion Hrest as [|? ? Hb Hrest']; subst.
    cbn [seq map fold_left].
    rewrite <- seq_shift, map_map.
    rewrite (map_ext (fun i => (2 * S i)%nat) (fun i => (2 + 2 * i)%nat)) by (intros; lia).
    rewrite <- (map_map (fun i => (2 * i)%nat) (fun i => (2 + i)%nat)).
    rewrite fold_loop_shift.
    rewrite IH; [|simpl in Hlen; lia|assumption].
    destruct (digit16_hex_char a Ha) as (da & Hda & _).
    destruct (digit16_hex_char b Hb) as (db & Hdb & _).
    unfold loop_body at 1, slice. cbn [Nat.mul Nat.add Nat.sub skipn firstn].
    unfold int16. cbn [int16_acc]. rewrite Hda, Hdb.
    cbn [pair_values]. unfold nibble. rewrite Hda, Hdb.
    rewrite <- app_assoc. cbn [app].
    replace (16 * (16 * 0 + da) + db) with (16 * da + db) by lia.
    reflexivity.
Qed.

Lemma to_bytes_pair_values (p : str) :
  Forall (fun c => is_hex_char c = true) p ->
  to_bytes (pair_values p) = Ok (parse_pairs p).
Proof.
  revert p. fix IH 1. intros p Hhex.
  destruct p as [|a [|b rest]]; try reflexivity.
  inversion Hhex as [|? ? Ha Hrest]; subst.
  inversion Hrest as [|? ? Hb Hrest']; subst.
  cbn [pair_values parse_pairs to_bytes].
  destruct (digit16_hex_char a Ha) as (da & Hda & Hra).
  destruct (digit16_hex_char b Hb) as (db & Hdb & Hrb).
  unfold nibble. rewrite Hda, Hdb.
  replace ((0 <=? 16 * da + db) && (16 * da + db <? 256)) with true
    by (symmetry; apply andb_true_intro; split; [apply Z.leb_le | apply Z.ltb_lt]; lia).
  rewrite (IH rest Hrest'). reflexivity.
Qed.

Lemma filter_hex_Forall (s : str) :
  Forall (fun c => is_hex_char c = true) (filter is_hex_char s).
Proof.
  apply Forall_forall. intros c Hc. apply filter_In in Hc. tauto.
Qed.

Lemma pad_odd_even (d : str) :
  exists k, length (pad_odd d) = (2 * k)%nat.
Proof.
  unfold pad_odd. destruct (Nat.odd (length d)) eqn:Hodd.
  - apply Nat.odd_spec in Hodd. destruct Hodd as [m Hm].
    exists (S m). rewrite length_app. simpl. lia.
  - assert (Hev : Nat.even (length d) = true)
      by (rewrite <- Nat.negb_odd, Hodd; reflexivity).
    apply Nat.even_spec in Hev. destruct Hev as [m Hm]. exists m. exact Hm.
Qed.

Lemma odd_test (n : nat) : negb (Nat.eqb (n mod 2) 0) = Nat.odd n.
Proof.
  destruct (Nat.odd n) eqn:Hodd.
  - apply Nat.odd_spec in Hodd. destruct Hodd as [m ->].
    replace (2 * m + 1)%nat with (1 + m * 2)%nat by lia.
    rewrite Nat.Div0.mod_add. reflexivity.
  - assert (Hev : Nat.even n = true) by (rewrite <- Nat.negb_odd, Hodd; reflexivity).
    apply Nat.even_spec in Hev. destruct Hev as [m ->].
    replace (2 * m)%nat with (0 + m * 2)%nat by lia.
    rewrite Nat.Div0.mod_add. reflexivity.
Qed.

(** The code computes what the specification describes, and returns. *)
Lemma hex_to_bytes_refines (hex_str : str) :
  hex_to_bytes hex_str = Ok (hex_to_bytes_spec hex_str).
Proof.
  unfold hex_to_bytes, hex_to_bytes_spec, re_sub_non_hex.
  pose proof (filter_hex_Forall hex_str) as Hhex.
  destruct (filter is_hex_char hex_str) as [|c d] eqn:Hd; [reflexivity|].
  rewrite odd_test.
  change (if Nat.odd (length (c :: d)) then (c :: d) ++ lit "0" else c :: d)
    with (pad_odd (c :: d)).
  assert (Hpad : Forall (fun c => is_hex_char c = true) (pad_odd (c :: d))).
  { unfold pad_odd. destruct (Nat.odd _); [|assumption].
    apply Forall_app. split; [assumption|]. repeat constructor. }
  destruct (pad_odd_even (c :: d)) as [k Hk].
  rewrite Hk, range_by_2_even.
  change (fun result i => match int16 (slice (pad_odd (c :: d)) i (i + 2)) with
                          | Some v => result ++ [v]
                          | None => result
                          end) with (loop_body (pad_odd (c :: d))).
  rewrite (fold_loop_pairs k _ [] Hk Hpad). cbn [app].
  apply to_bytes_pair_values. exact Hpad.
Qed.

Lemma parse_pairs_format (data : bytes) :
  parse_pairs (flat_map format_02X data) = data.
Proof.
  induction data as [|b data IH]; [reflexivity|].
  destruct (nibbles_of_byte b) as [Hh Hl].
  cbn [flat_map]. unfold format_02X at 1. cbn [app parse_pairs].
  unfold nibble. rewrite (digit16_hex_digit _ Hh), (digit16_hex_digit _ Hl).
  rewrite IH. f_equal.
  rewrite <- (byte.of_Z_unsigned b) at 3. f_equal.
  pose proof (Z.div_mod (byte.unsigned b) 16). lia.
Qed.

Lemma length_flat_format (data : bytes) :
  length (flat_map format_02X data) = (2 * length data)%nat.
Proof.
  induction data as [|b data IH]; [reflexivity|].
  cbn [flat_map]. rewrite length_app, IH. simpl. lia.
Qed.

End HexFacts.

(** ** The decoding loop *)

Module LoopFacts.
Section Loop.
Variable step : bytes -> unit_result.
Variable err : errors.

(** Every round that goes on consumes at least one byte and no more
    than there are. *)
Hypothesis step_progress : forall s n,
  s <> [] ->
  (exists cp, step s = Char cp n) \/ step s = Invalid n ->
  (1 <= n <= length s)%nat.

Local Abbreviation run := (run_loop step err).

Lemma length_skipn_lt (n : nat) (b : byte) (s : bytes) :
  (1 <= n)%nat -> (length (skipn n (b :: s)) <= length s)%nat.
Proof. intros Hn. rewrite length_skipn. cbn [length]. lia. Qed.

Lemma fuel_irrelevant (f1 : nat) :
  forall (f2 : nat) (s : bytes),
    (length s <= f1)%nat -> (length s <= f2)%nat ->
    decode_loop step err f1 s = decode_loop step err f2 s.
Proof.
  induction f1 as [|f1 IH]; intros f2 s H1 H2.
  - destruct s; [|simpl in H1; lia]. destruct f2; reflexivity.
  - destruct s as [|b s]; [destruct f2; reflexivity|].
    destruct f2 as [|f2]; [simpl in H2; lia|].
    cbn [decode_loop]. simpl in H1, H2.
    destruct (step (b :: s)) as [cp n|n|] eqn:Hs; try reflexivity.
    + assert (Hn : (1 <= n <= length (b :: s))%nat)
        by (apply step_progress; [discriminate | left; eauto]).
      pose proof (length_skipn_lt n b s (proj1 Hn)).
      rewrite (IH f2) by lia. reflexivity.
    + assert (Hn : (1 <= n <= length (b :: s))%nat)
        by (apply step_progress; [discriminate | right; eauto]).
      pose proof (length_skipn_lt n b s (proj1 Hn)).
      destruct err; try reflexivity; rewrite (IH f2) by lia; reflexivity.
Qed.

(** One round of the loop. *)
Lemma run_nil : run [] = Ok ([], []).
Proof. reflexivity. Qed.

Lemma run_cons (b : byte) (s : bytes) :
  run (b :: s) =
  match step (b :: s) with
  | Char cp n =>
    r <- run (skipn n (b :: s)) ;; Ok (cp :: fst r, snd r)
  | Invalid n =>
    match err with
    | Strict => Raise UnicodeDecodeError
    | Ignore => run (skipn n (b :: s))
    | Replace =>
      r <- run (skipn n (b :: s)) ;; Ok (REPLACEMENT_CHARACTER :: fst r, snd r)
    end
  | Incomplete => Ok ([], b :: s)
  end.
Proof.
  unfold run_loop at 1. cbn [length decode_loop].
  destruct (step (b :: s)) as [cp n|n|] eqn:Hs; try reflexivity.
  - assert (Hn : (1 <= n <= length (b :: s))%nat)
      by (apply step_progress; [discriminate | left; eauto]).
    pose proof (length_skipn_lt n b s (proj1 Hn)).
    unfold run_loop. rewrite (fuel_irrelevant (length s) (length (skipn n (b :: s)))) by lia.
    reflexivity.
  - assert (Hn : (1 <= n <= length (b :: s))%nat)
      by (apply step_progress; [discriminate | right; eauto]).
    pose proof (length_skipn_lt n b s (proj1 Hn)).
    unfold run_loop.
    rewrite (fuel_irrelevant (length s) (length (skipn n (b :: s)))) by lia.
    reflexivity.
Qed.

(** Under [ignore] and [replace] the loop returns. *)
Lemma run_total (s : bytes) :
  err <> Strict -> exists text rest, run s = Ok (text, rest).
Proof.
  intros Herr.
  remember (length s) as m eqn:Hm. revert s Hm.
  induction m as [m IH] using lt_wf_ind. intros s Hm.
  destruct s as [|b s]; [exists [], []; reflexivity|].
  rewrite run_cons.
  destruct (step (b :: s)) as [cp n|n|] eqn:Hs.
  - assert (Hn : (1 <= n <= length (b :: s))%nat)
      by (apply step_progress; [discriminate | left; eauto]).
    pose proof (length_skipn_lt n b s (proj1 Hn)).
    destruct (IH (length (skipn n (b :: s)))) with (s := skipn n (b :: s))
      as (text & rest & Hr); [simpl in Hm; lia | reflexivity |].
    rewrite Hr. cbn. eauto.
  - assert (Hn : (1 <= n <= length (b :: s))%nat)
      by (apply step_progress; [discriminate | right; eauto]).
    pose proof (length_skipn_lt n b s (proj1 Hn)).
    destruct (IH (length (skipn n (b :: s)))) with (s := skipn n (b :: s))
      as (text & rest & Hr); [simpl in Hm; lia | reflexivity |].
    destruct err; [congruence | rewrite Hr; eauto | rewrite Hr; cbn; eauto].
  - eauto.
Qed.

Section NonFinal.
(** A decision taken on a chunk stands when more bytes follow it. *)
Hypothesis step_stable : forall s t,
  s <> [] -> step s <> Incomplete -> step (s ++ t) = step s.

Variable bound : nat.
Hypothesis step_held : forall s, step s = Incomplete -> (length s <= bound)%nat.

(** Decoding a chunk and then what it left over with the next chunk is
    decoding both chunks at once. *)
Lemma run_app (s t : bytes) :
  forall text rest,
    run s = Ok (text, rest) ->
    run (s ++ t) = (r <- run (rest ++ t) ;; Ok (text ++ fst r, snd r)).
Proof.
  remember (length s) as m eqn:Hm. revert s Hm.
  induction m as [m IH] using lt_wf_ind. intros s Hm text rest Hrun.
  destruct s as [|b s].
  - rewrite run_nil in Hrun. injection Hrun as <- <-. cbn [app].
    destruct (run t) as [[y r]|e]; reflexivity.
  - rewrite run_cons in Hrun.
    change ((b :: s) ++ t) with (b :: (s ++ t)). rewrite run_cons.
    change (b :: (s ++ t)) with ((b :: s) ++ t).
    destruct (step (b :: s)) as [cp n|n|] eqn:Hs.
    + rewrite step_stable, Hs by (rewrite ?Hs; discriminate).
      assert (Hn : (1 <= n <= length (b :: s))%nat)
        by (apply step_progress; [discriminate | left; eauto]).
      pose proof (length_skipn_lt n b s (proj1 Hn)).
      rewrite skipn_app. replace (n - length (b :: s))%nat with 0%nat by lia.
      cbn [skipn].
      destruct (run (skipn n (b :: s))) as [[x r]|e] eqn:Hr; [|discriminate].
      cbn in Hrun. injection Hrun as <- <-.
      rewrite (IH (length (skipn n (b :: s)))) with (text := x) (rest := r);
        [|simpl in Hm; lia|reflexivity|exact Hr].
      destruct (run (r ++ t)) as [[y r']|e]; reflexivity.
    + rewrite step_stable, Hs by (rewrite ?Hs; discriminate).
      assert (Hn : (1 <= n <= length (b :: s))%nat)
        by (apply step_progress; [discriminate | right; eauto]).
      pose proof (length_skipn_lt n b s (proj1 Hn)).
      rewrite skipn_app. replace (n - length (b :: s))%nat with 0%nat by lia.
      cbn [skipn].
      destruct err; [discriminate| |].
      * rewrite (IH (length (skipn n (b :: s)))) with (text := text) (rest := rest);
          [reflexivity|simpl in Hm; lia|reflexivity|exact Hrun].
      * destruct (run_loop step Replace (skipn n (b :: s))) as [[x r]|e] eqn:Hr;
          [|discriminate].
        cbn in Hrun. injection Hrun as <- <-.
        rewrite (IH (length (skipn n (b :: s)))) with (text := x) (rest := r);
          [|simpl in Hm; lia|reflexivity|exact Hr].
        destruct (run_loop step Replace (r ++ t)) as [[y r']|e]; reflexivity.
    + injection Hrun as <- <-. cbn [app].
      rewrite <- run_cons.
      destruct (run (b :: s ++ t)) as [[y r']|e]; reflexivity.
Qed.

(** What the loop leaves over is an incomplete unit: it is short, and
    the loop run on it alone writes nothing and consumes nothing. *)
Lemma run_rest (s : bytes) :
  forall text rest,
    run s = Ok (text, rest) ->
    (length rest <= bound)%nat /\ (rest = [] \/ step rest = Incomplete)
    /\ run rest = Ok ([], rest).
Proof.
  remember (length s) as m eqn:Hm. revert s Hm.
  induction m as [m IH] using lt_wf_ind. intros s Hm text rest Hrun.
  destruct s as [|b s].
  - rewrite run_nil in Hrun. injection Hrun as <- <-.
    repeat split; [simpl; lia | now left].
  - pose proof Hrun as Hrun'. rewrite run_cons in Hrun.
    destruct (step (b :: s)) as [cp n|n|] eqn:Hs.
    + assert (Hn : (1 <= n <= length (b :: s))%nat)
        by (apply step_progress; [discriminate | left; eauto]).
      pose proof (length_skipn_lt n b s (proj1 Hn)).
      destruct (run (skipn n (b :: s))) as [[x r]|e] eqn:Hr; [|discriminate].
      cbn in Hrun. injection Hrun as <- <-.
      apply (IH (length (skipn n (b :: s)))) with (s := skipn n (b :: s)) (text := x);
        [simpl in Hm; lia|reflexivity|exact Hr].
    + assert (Hn : (1 <= n <= length (b :: s))%nat)
        by (apply step_progress; [discriminate | right; eauto]).
      pose proof (length_skipn_lt n b s (proj1 Hn)).
      destruct err; [discriminate| |].
      * apply (IH (length (skipn n (b :: s)))) with (s := skipn n (b :: s)) (text := text);
          [simpl in Hm; lia|reflexivity|exact Hrun].
      * destruct (run_loop step Replace (skipn n (b :: s))) as [[x r]|e] eqn:Hr;
          [|discriminate].
        cbn in Hrun. injection Hrun as <- <-.
        apply (IH (length (skipn n (b :: s)))) with (s := skipn n (b :: s)) (text := x);
          [simpl in Hm; lia|reflexivity|exact Hr].
    + injection Hrun as <- <-.
      split; [apply step_held; exact Hs|].
      split; [right; exact Hs|].
      rewrite run_cons, Hs. reflexivity.
Qed.

End NonFinal.
End Loop.
End LoopFacts.

(** ** The two codecs meet the assumptions of the loop *)

Module CodecFacts.

Ltac split_cmp :=
  match goal with
  | |- context [Z.ltb ?a ?b] => destruct (Z.ltb_spec a b)
  | |- context [Z.leb ?a ?b] => destruct (Z.leb_spec a b)
  | |- context [Z.eqb ?a ?b] => destruct (Z.eqb_spec a b)
  end; cbn [andb orb negb]; try lia.

Lemma utf8_step_units (final : bool) (s : bytes) :
  s <> [] -> units_ok s (UTF8.step final s).
Proof.
  intros Hs. destruct s as [|b0 s]; [congruence|]. clear Hs.
  unfold UTF8.step, UTF8.utf8_decode, UTF8.truncated_surrogate,
    UTF8.IS_CONTINUATION_BYTE.
  destruct s as [|b1 [|b2 [|b3 s]]]; destruct final; cbn [negb andb length];
    repeat split_cmp; cbn [units_ok length]; lia.
Qed.

Lemma utf8_step_progress (final : bool) (s : bytes) (n : nat) :
  s <> [] ->
  (exists cp, UTF8.step final s = Char cp n) \/ UTF8.step final s = Invalid n ->
  (1 <= n <= length s)%nat.
Proof.
  intros Hs H. pose proof (utf8_step_units final s Hs) as U.
  destruct H as [[cp H]|H]; rewrite H in U; exact U.
Qed.

Lemma utf8_step_stable (s t : bytes) :
  s <> [] -> UTF8.step false s <> Incomplete ->
  UTF8.step false (s ++ t) = UTF8.step false s.
Proof.
  intros Hs. destruct s as [|b0 s]; [congruence|]. clear Hs.
  unfold UTF8.step, UTF8.utf8_decode, UTF8.truncated_surrogate,
    UTF8.IS_CONTINUATION_BYTE.
  destruct s as [|b1 [|b2 [|b3 s]]];
    [destruct t as [|c1 [|c2 [|c3 t]]]
    |destruct t as [|c2 [|c3 t]]
    |destruct t as [|c3 t]
    |];
    cbn [app negb andb length]; try reflexivity;
    repeat split_cmp; try reflexivity; try congruence.
Qed.

Lemma utf8_step_held (s : bytes) :
  UTF8.step false s = Incomplete -> (length s <= 3)%nat.
Proof.
  unfold UTF8.step, UTF8.utf8_decode, UTF8.truncated_surrogate,
    UTF8.IS_CONTINUATION_BYTE.
  destruct s as [|b0 [|b1 [|b2 [|b3 s]]]]; cbn [negb andb length];
    try (intros _; lia);
    repeat split_cmp; try discriminate.
Qed.

Section Gbk.
Context {tables : GbkTables}.

Lemma gbk_step_units (final : bool) (s : bytes) :
  s <> [] -> units_ok s (GBK.step final s).
Proof.
  intros Hs. destruct s as [|b0 s]; [congruence|]. clear Hs.
  unfold GBK.step. split_cmp; [cbn; lia|].
  destruct s as [|b1 s].
  - destruct final; cbn; lia.
  - destruct (GBK.GBK_DECODE _ _); cbn; lia.
Qed.

Lemma gbk_step_progress (final : bool) (s : bytes) (n : nat) :
  s <> [] ->
  (exists cp, GBK.step final s = Char cp n) \/ GBK.step final s = Invalid n ->
  (1 <= n <= length s)%nat.
Proof.
  intros Hs H. pose proof (gbk_step_units final s Hs) as U.
  destruct H as [[cp H]|H]; rewrite H in U; exact U.
Qed.

Lemma gbk_step_stable (s t : bytes) :
  s <> [] -> GBK.step false s <> Incomplete ->
  GBK.step false (s ++ t) = GBK.step false s.
Proof.
  intros Hs. destruct s as [|b0 s]; [congruence|]. clear Hs.
  unfold GBK.step. cbn [app]. split_cmp; [reflexivity|].
  destruct s as [|b1 s]; [congruence|reflexivity].
Qed.

Lemma gbk_step_held (s : bytes) :
  GBK.step false s = Incomplete -> (length s <= 1)%nat.
Proof.
  unfold GBK.step. destruct s as [|b0 s]; [cbn; lia|].
  split_cmp; [discriminate|].
  destruct s as [|b1 s]; [cbn; lia|].
  destruct (GBK.GBK_DECODE _ _); discriminate.
Qed.

(** Both codecs, through [decode_step]. *)
Lemma decode_step_progress (c : codec) (final : bool) (s : bytes) (n : nat) :
  s <> [] ->
  (exists cp, decode_step c final s = Char cp n)
  \/ decode_step c final s = Invalid n ->
  (1 <= n <= length s)%nat.
Proof.
  destruct c; [apply utf8_step_progress | apply gbk_step_progress].
Qed.

Lemma decode_step_stable (c : codec) (s t : bytes) :
  s <> [] -> decode_step c false s <> Incomplete ->
  decode_step c false (s ++ t) = decode_step c false s.
Proof.
  destruct c; [apply utf8_step_stable | apply gbk_step_stable].
Qed.

Lemma decode_step_held (c : codec) (s : bytes) :
  decode_step c false s = Incomplete -> (length s <= 3)%nat.
Proof.
  destruct c; cbn [decode_step]; intros H.
  - now apply utf8_step_held.
  - apply gbk_step_held in H. lia.
Qed.

(** A final call decides as a non-final one wherever the latter decides. *)
Lemma utf8_step_final_agrees (s : bytes) :
  UTF8.step false s <> Incomplete -> UTF8.step true s = UTF8.step false s.
Proof.
  unfold UTF8.step, UTF8.utf8_decode, UTF8.truncated_surrogate,
    UTF8.IS_CONTINUATION_BYTE.
  destruct s as [|b0 [|b1 [|b2 [|b3 s]]]]; cbn [negb andb length];
    try congruence; repeat split_cmp; try reflexivity; try congruence.
Qed.

Lemma gbk_step_final_agrees (s : bytes) :
  GBK.step false s <> Incomplete -> GBK.step true s = GBK.step false s.
Proof.
  unfold GBK.step. destruct s as [|b0 s]; [congruence|].
  split_cmp; [reflexivity|].
  destruct s as [|b1 s]; [congruence|reflexivity].
Qed.

Lemma decode_step_final_agrees (c : codec) (s : bytes) :
  decode_step c false s <> Incomplete ->
  decode_step c true s = decode_step c false s.
Proof.
  destruct c; [apply utf8_step_final_agrees | apply gbk_step_final_agrees].
Qed.

(** What a non-final call would hold, a final call under [ignore]
    consumes without writing anything. *)
Lemma utf8_tail_cases (s : bytes) :
  s <> [] -> UTF8.step false s = Incomplete ->
  UTF8.step true s = Invalid (length s)
  \/ exists b0 b1, s = [b0; b1] /\ UTF8.step true s = Invalid 1
                   /\ UTF8.step true [b1] = Invalid 1.
Proof.
  intros Hs. destruct s as [|b0 s]; [congruence|]. clear Hs.
  destruct s as [|b1 [|b2 [|b3 s]]].
  - intros H. left. revert H.
    unfold UTF8.step, UTF8.utf8_decode.
    repeat split_cmp; try discriminate; intros; reflexivity.
  - intros H.
    destruct (UTF8.truncated_surrogate [b0; b1]) eqn:Ht.
    + right. exists b0, b1. split; [reflexivity|].
      revert H Ht.
      unfold UTF8.step, UTF8.utf8_decode, UTF8.truncated_surrogate,
        UTF8.IS_CONTINUATION_BYTE.
      cbn [negb andb length].
      repeat split_cmp; try discriminate; intros; split; reflexivity.
    + left. revert H. unfold UTF8.step. rewrite Ht.
      unfold UTF8.utf8_decode, UTF8.IS_CONTINUATION_BYTE.
      cbn [negb andb length].
      repeat split_cmp; try discriminate; intros; reflexivity.
  - intros H. left. revert H.
    unfold UTF8.step, UTF8.utf8_decode, UTF8.truncated_surrogate,
      UTF8.IS_CONTINUATION_BYTE.
    cbn [negb andb length].
    repeat split_cmp; try discriminate; intros; reflexivity.
  - intros H. apply utf8_step_held in H. cbn [length] in H. lia.
Qed.

Lemma utf8_final_tail (s : bytes) :
  UTF8.step false s = Incomplete ->
  decode_loop (UTF8.step true) Ignore (length s) s = Ok ([], []).
Proof.
  intros H. destruct s as [|b0 s]; [reflexivity|].
  destruct (utf8_tail_cases (b0 :: s)) as [Hall|(c0 & c1 & Hs & H0 & H1)];
    [discriminate | exact H | |].
  - cbn [length decode_loop]. rewrite Hall.
    cbn [length skipn]. rewrite skipn_all. destruct (length s); reflexivity.
  - injection Hs as -> ->.
    cbn [length decode_loop]. rewrite H0. cbn [skipn]. rewrite H1. reflexivity.
Qed.

Lemma gbk_final_tail (s : bytes) :
  GBK.step false s = Incomplete ->
  decode_loop (GBK.step true) Ignore (length s) s = Ok ([], []).
Proof.
  unfold GBK.step. destruct s as [|b0 s]; [reflexivity|].
  cbn [length decode_loop]. split_cmp; [discriminate|].
  destruct s as [|b1 s]; [reflexivity|].
  destruct (GBK.GBK_DECODE _ _); discriminate.
Qed.

Lemma decode_final_tail (c : codec) (s : bytes) :
  decode_step c false s = Incomplete ->
  decode_loop (decode_step c true) Ignore (length s) s = Ok ([], []).
Proof.
  destruct c; [apply utf8_final_tail | apply gbk_final_tail].
Qed.

End Gbk.
End CodecFacts.

(** ** [buffer_decode] and the methods of the handler *)

Module HandlerFacts.
Import LoopFacts CodecFacts.
Section Facts.
Context {tables : GbkTables}.

Lemma buffer_decode_total (c : codec) (err : errors) (final : bool) (data : bytes) :
  err <> Strict -> exists text rest, buffer_decode c err final data = Ok (text, rest).
Proof.
  apply (run_total (decode_step c final) err). apply decode_step_progress.
Qed.

Lemma buffer_decode_app (c : codec) (err : errors) (s t : bytes) (text : str)
    (rest : bytes) :
  buffer_decode c err false s = Ok (text, rest) ->
  buffer_decode c err false (s ++ t)
  = (r <- buffer_decode c err false (rest ++ t) ;; Ok (text ++ fst r, snd r)).
Proof.
  apply (run_app (decode_step c false) err).
  - apply decode_step_progress.
  - apply decode_step_stable.
Qed.

Lemma buffer_decode_rest (c : codec) (err : errors) (s : bytes) (text : str)
    (rest : bytes) :
  buffer_decode c err false s = Ok (text, rest) ->
  (length rest <= 3)%nat /\ unresolved c rest
  /\ buffer_decode c err false rest = Ok ([], rest).
Proof.
  apply (run_rest (decode_step c false) err (decode_step_progress c false) 3).
  apply decode_step_held.
Qed.

(** Under [ignore], a final call returns the text of the non-final call
    and holds nothing. *)
Lemma buffer_decode_final (c : codec) (s : bytes) :
  forall text rest,
    buffer_decode c Ignore false s = Ok (text, rest) ->
    buffer_decode c Ignore true s = Ok (text, []).
Proof.
  remember (length s) as m eqn:Hm. revert s Hm.
  induction m as [m IH] using lt_wf_ind. intros s Hm text rest H.
  destruct s as [|b s].
  - cbn in H. injection H as <- <-. reflexivity.
  - change (buffer_decode c Ignore false (b :: s))
      with (run_loop (decode_step c false) Ignore (b :: s)) in H.
    change (buffer_decode c Ignore true (b :: s))
      with (run_loop (decode_step c true) Ignore (b :: s)).
    rewrite (run_cons _ _ (decode_step_progress c false)) in H.
    destruct (decode_step c false (b :: s)) as [cp n|n|] eqn:Hs.
    + rewrite (run_cons _ _ (decode_step_progress c true)).
      rewrite decode_step_final_agrees, Hs by (rewrite Hs; discriminate).
      assert (Hn : (1 <= n <= length (b :: s))%nat)
        by (eapply decode_step_progress; [discriminate | left; eauto]).
      pose proof (length_skipn_lt n b s (proj1 Hn)).
      destruct (run_loop (decode_step c false) Ignore (skipn n (b :: s)))
        as [[x r]|e] eqn:Hr; [|discriminate].
      cbn in H. injection H as <- <-.
      change (run_loop (decode_step c true) Ignore (skipn n (b :: s)))
        with (buffer_decode c Ignore true (skipn n (b :: s))).
      rewrite (IH (length (skipn n (b :: s)))) with (text := x) (rest := r);
        [reflexivity | simpl in Hm; lia | reflexivity | exact Hr].
    + rewrite (run_cons _ _ (decode_step_progress c true)).
      rewrite decode_step_final_agrees, Hs by (rewrite Hs; discriminate).
      assert (Hn : (1 <= n <= length (b :: s))%nat)
        by (eapply decode_step_progress; [discriminate | right; eauto]).
      pose proof (length_skipn_lt n b s (proj1 Hn)).
      change (run_loop (decode_step c true) Ignore (skipn n (b :: s)))
        with (buffer_decode c Ignore true (skipn n (b :: s))).
      apply (IH (length (skipn n (b :: s)))) with (rest := rest);
        [simpl in Hm; lia | reflexivity | exact H].
    + injection H as <- <-. apply decode_final_tail. exact Hs.
Qed.

(** Names. *)
Lemma lower_char_idem (a : ascii) : lower_char (lower_char a) = lower_char a.
Proof. destruct a as [[] [] [] [] [] [] [] []]; reflexivity. Qed.

Lemma lower_idem (s : string) : lower (lower s) = lower s.
Proof.
  induction s as [|a s IH]; [reflexivity|].
  cbn [lower]. now rewrite lower_char_idem, IH.
Qed.

Lemma lookup_lower (name : string) : lookup (lower name) = lookup name.
Proof. unfold lookup. now rewrite lower_idem. Qed.

Lemma init_fresh (name : string) (h : EncodingHandler) :
  Handler.init name = Ok h <-> exists c, lookup name = Ok c /\ h = fresh name c.
Proof.
  unfold Handler.init, getincrementaldecoder, fresh. rewrite lookup_lower.
  destruct (lookup name) as [c|e]; cbn [bind]; split.
  - intros H. injection H as <-. eauto.
  - intros (c' & Hc & ->). injection Hc as <-. reflexivity.
  - discriminate.
  - intros (c' & Hc & _). discriminate.
Qed.

(** A call of [decode] on a decoder that does not raise. *)
Lemma decode_returns (h : EncodingHandler) (data : bytes) (final : bool)
    (text : str) (rest : bytes) :
  buffer_decode (active_codec h) (dec_errors (_decoder h)) final (carry h ++ data)
    = Ok (text, rest) ->
  Handler.decode h data final = (Ok text, with_carry h rest).
Proof.
  intros H. unfold Handler.decode, incremental_decode.
  unfold active_codec, carry in H. rewrite H. reflexivity.
Qed.

Lemma decode_nonstrict (h : EncodingHandler) (data : bytes) (final : bool) :
  dec_errors (_decoder h) <> Strict ->
  exists text rest,
    buffer_decode (active_codec h) (dec_errors (_decoder h)) final (carry h ++ data)
      = Ok (text, rest)
    /\ Handler.decode h data final = (Ok text, with_carry h rest).
Proof.
  intros Herr.
  destruct (buffer_decode_total (active_codec h) _ final (carry h ++ data) Herr)
    as (text & rest & H).
  exists text, rest. split; [exact H | now apply decode_returns].
Qed.

(** Two non-final calls in a row are one call on the joined chunks. *)
Lemma decode_app (h : EncodingHandler) (b1 b2 : bytes) :
  dec_errors (_decoder h) <> Strict ->
  exists t1 h1 t2 h2,
    Handler.decode h b1 false = (Ok t1, h1)
    /\ Handler.decode h1 b2 false = (Ok t2, h2)
    /\ Handler.decode h (b1 ++ b2) false = (Ok (t1 ++ t2), h2).
Proof.
  intros Herr.
  destruct (decode_nonstrict h b1 false Herr) as (t1 & r1 & B1 & D1).
  assert (Herr1 : dec_errors (_decoder (with_carry h r1)) <> Strict) by exact Herr.
  destruct (decode_nonstrict (with_carry h r1) b2 false Herr1) as (t2 & r2 & B2 & D2).
  exists t1, (with_carry h r1), t2, (with_carry h r2).
  split; [exact D1|]. split; [exact D2|].
  apply decode_returns. rewrite app_assoc.
  rewrite (buffer_decode_app _ _ _ b2 _ _ B1).
  unfold active_codec, carry, with_carry in B2.
  cbn [_decoder dec_codec dec_errors dec_buffer] in B2.
  unfold active_codec. rewrite B2. reflexivity.
Qed.

(** An unresolved tail has no complete character inside. *)
Lemma utf8_unresolved_no_character (buf pre mid post : bytes) (cp : Z) :
  UTF8.step false buf = Incomplete ->
  buf = pre ++ mid ++ post ->
  UTF8.step true mid <> Char cp (length mid).
Proof.
  intros H Heq. pose proof (utf8_step_held _ H) as Hlen.
  destruct buf as [|b0 [|b1 [|b2 [|b3 buf]]]]; cbn [length] in Hlen; try lia;
    clear Hlen;
    destruct pre as [|p0 [|p1 [|p2 [|p3 pre]]]]; cbn [app] in Heq;
    try discriminate;
    destruct mid as [|m0 [|m1 [|m2 [|m3 mid]]]]; cbn [app] in Heq;
    try discriminate;
    destruct post as [|q0 [|q1 [|q2 [|q3 post]]]]; cbn [app] in Heq;
    try discriminate;
    injection Heq; intros; subst;
    revert H;
    unfold UTF8.step, UTF8.utf8_decode, UTF8.truncated_surrogate,
      UTF8.IS_CONTINUATION_BYTE;
    cbn [negb andb length];
    repeat split_cmp; congruence.
Qed.

Lemma gbk_unresolved_no_character (buf pre mid post : bytes) (cp : Z) :
  GBK.step false buf = Incomplete ->
  buf = pre ++ mid ++ post ->
  GBK.step true mid <> Char cp (length mid).
Proof.
  intros H Heq. pose proof (gbk_step_held _ H) as Hlen.
  destruct buf as [|b0 [|b1 buf]]; cbn [length] in Hlen; try lia; clear Hlen;
    destruct pre as [|p0 [|p1 pre]]; cbn [app] in Heq; try discriminate;
    destruct mid as [|m0 [|m1 mid]]; cbn [app] in Heq; try discriminate;
    destruct post as [|q0 post]; cbn [app] in Heq; try discriminate;
    injection Heq; intros; subst;
    revert H; unfold GBK.step; cbn [length];
    repeat split_cmp; congruence.
Qed.

Lemma unresolved_no_character (c : codec) (buf : bytes) :
  unresolved c buf -> ~ contains_character c buf.
Proof.
  intros Hu (pre & mid & post & Heq & cp & Hc).
  assert (H : decode_step c false buf = Incomplete).
  { destruct Hu as [->|Hu]; [destruct c; reflexivity | exact Hu]. }
  destruct c; cbn [decode_step] in *.
  - exact (utf8_unresolved_no_character buf pre mid post cp H Heq Hc).
  - exact (gbk_unresolved_no_character buf pre mid post cp H Heq Hc).
Qed.

Lemma unresolved_invariant (h : EncodingHandler) :
  unresolved (active_codec h) (carry h) -> carry_invariant h.
Proof.
  intros Hu. split; [|split; [now apply unresolved_no_character | exact Hu]].
  destruct Hu as [->|Hu]; [cbn; lia | now apply decode_step_held in Hu].
Qed.

Lemma fresh_invariant (name : string) (c : codec) : carry_invariant (fresh name c).
Proof. apply unresolved_invariant. now left. Qed.

Lemma reset_cases (h : EncodingHandler) :
  (exists c, lookup (_encoding h) = Ok c
             /\ Handler.reset h
                = (Ok tt, {| _encoding := _encoding h;
                             _decoder := {| dec_codec := c; dec_errors := Ignore;
                                            dec_buffer := [] |} |}))
  \/ (exists e, lookup (_encoding h) = Raise e /\ Handler.reset h = (Raise e, h)).
Proof.
  unfold Handler.reset, getincrementaldecoder.
  destruct (lookup (_encoding h)) as [c|e]; cbn [bind]; eauto.
Qed.

Lemma reset_invariant (h : EncodingHandler) :
  carry_invariant h -> carry_invariant (snd (Handler.reset h)).
Proof.
  intros Hinv.
  destruct (reset_cases h) as [(c & _ & ->)|(e & _ & ->)]; cbn [snd].
  - apply unresolved_invariant. now left.
  - exact Hinv.
Qed.

Lemma set_encoding_invariant (h : EncodingHandler) (value : string) :
  carry_invariant h -> carry_invariant (snd (Handler.set_encoding h value)).
Proof.
  intros Hinv. unfold Handler.set_encoding.
  destruct (negb (String.eqb (lower value) (_encoding h))); [|exact Hinv].
  apply reset_invariant. exact Hinv.
Qed.

Lemma decode_invariant (h : EncodingHandler) (data : bytes) :
  carry_invariant h -> carry_invariant (snd (Handler.decode h data false)).
Proof.
  intros Hinv. unfold Handler.decode, incremental_decode.
  destruct (buffer_decode (dec_codec (_decoder h)) (dec_errors (_decoder h)) false
              (dec_buffer (_decoder h) ++ data)) as [[text rest]|e] eqn:Hb;
    cbn [bind fst snd].
  - apply unresolved_invariant.
    apply buffer_decode_rest in Hb. exact (proj1 (proj2 Hb)).
  - pose proof (reset_invariant h Hinv) as Hr.
    destruct (Handler.reset h) as [[u|e'] h']; exact Hr.
Qed.

(** Under [ignore], bytes in error leave no trace: the chunk decodes as
    if they were not there. *)
Lemma buffer_decode_drops (c : codec) (s bad post : bytes) (t0 : str) :
  buffer_decode c Ignore false s = Ok (t0, []) ->
  bad <> [] ->
  decode_step c false (bad ++ post) = Invalid (length bad) ->
  buffer_decode c Ignore false (s ++ bad ++ post)
  = buffer_decode c Ignore false (s ++ post).
Proof.
  intros Hs Hbad Hstep.
  rewrite (buffer_decode_app _ _ _ (bad ++ post) _ _ Hs).
  rewrite (buffer_decode_app _ _ _ post _ _ Hs).
  cbn [app]. f_equal.
  destruct bad as [|b bad]; [congruence|].
  change (buffer_decode c Ignore false ((b :: bad) ++ post))
    with (run_loop (decode_step c false) Ignore (b :: (bad ++ post))).
  rewrite (run_cons _ _ (decode_step_progress c false)).
  change (b :: bad ++ post) with ((b :: bad) ++ post).
  rewrite Hstep, skipn_app, skipn_all, Nat.sub_diag. reflexivity.
Qed.

End Facts.
End HandlerFacts.

(** ** [str.encode] *)

Module EncodeFacts.
Import CodecFacts.
Section Facts.
Context {tables : GbkTables}.

Lemma utf8_encode_step_length (ch : Z) (bs : bytes) :
  UTF8.encode_step ch = Some bs -> length bs = utf8_layout_length ch.
Proof.
  unfold UTF8.encode_step, utf8_layout_length.
  repeat split_cmp; destruct (UTF8.IS_SURROGATE ch); try discriminate;
    intros E; injection E as <-; reflexivity.
Qed.

Lemma gbk_encode_step_length (ch : Z) (bs : bytes) :
  0x80 <= ch -> GBK.encode_step ch = Some bs -> length bs = 2%nat.
Proof.
  unfold GBK.encode_step. intros Hch. repeat split_cmp.
  - discriminate.
  - destruct (GBK.GBK_ENCODE ch); [|discriminate].
    intros E. injection E as <-. reflexivity.
Qed.

Lemma encode_step_nonempty (c : codec) (ch : Z) (bs : bytes) :
  encode_step c ch = Some bs -> (1 <= length bs)%nat.
Proof.
  destruct c; cbn [encode_step].
  - intros E. rewrite (utf8_encode_step_length ch bs E).
    unfold utf8_layout_length. repeat split_cmp.
  - unfold GBK.encode_step. repeat split_cmp.
    + intros E. injection E as <-. cbn. lia.
    + discriminate.
    + destruct (GBK.GBK_ENCODE ch); [|discriminate].
      intros E. injection E as <-. cbn. lia.
Qed.

Lemma encode_or_substitute_nonempty (c : codec) (ch : Z) :
  (1 <= length (encode_or_substitute c ch))%nat.
Proof.
  unfold encode_or_substitute.
  destruct (encode_step c ch) as [bs|] eqn:H; [|cbn; lia].
  now apply encode_step_nonempty in H.
Qed.

Lemma encode_loop_replace (c : codec) (text : str) :
  encode_loop c Replace text = Ok (flat_map (encode_or_substitute c) text).
Proof.
  induction text as [|ch text IH]; [reflexivity|].
  cbn [encode_loop flat_map]. unfold encode_or_substitute at 1.
  destruct (encode_step c ch); rewrite IH; reflexivity.
Qed.

Lemma encode_loop_strict (c : codec) (text : str) (data : bytes) :
  encode_loop c Strict text = Ok data ->
  data = flat_map (encode_or_substitute c) text.
Proof.
  revert data. induction text as [|ch text IH]; intros data H.
  - injection H as <-. reflexivity.
  - cbn [encode_loop flat_map] in *. unfold encode_or_substitute at 1.
    destruct (encode_step c ch) as [bs|]; [|discriminate].
    destruct (encode_loop c Strict text) as [out|e]; [|discriminate].
    cbn in H. injection H as <-. now rewrite (IH out).
Qed.

Lemma length_flat_map_ge (c : codec) (text : str) :
  (length text <= length (flat_map (encode_or_substitute c) text))%nat.
Proof.
  induction text as [|ch text IH]; [reflexivity|].
  cbn [flat_map length]. rewrite length_app.
  pose proof (encode_or_substitute_nonempty c ch). lia.
Qed.

End Facts.
End EncodeFacts.

(** ** What the decoders hold *)

Module CarryFacts.
Import LoopFacts CodecFacts HexFacts HandlerFacts.
Section Facts.
Context {tables : GbkTables}.

Lemma in_all_bytes (b : byte) : In b all_bytes.
Proof.
  unfold all_bytes. apply in_map_iff. exists (Z.to_nat (byte.unsigned b)).
  pose proof (byte_range b). split.
  - rewrite Z2Nat.id by lia. apply byte.of_Z_unsigned.
  - apply in_seq. lia.
Qed.

Lemma unsigned_80 : byte.unsigned x80 = 0x80. Proof. reflexivity. Qed.
Lemma unsigned_90 : byte.unsigned x90 = 0x90. Proof. reflexivity. Qed.
Lemma unsigned_a0 : byte.unsigned xa0 = 0xA0. Proof. reflexivity. Qed.

Lemma utf8_unresolved_cases (s : bytes) :
  UTF8.step false s = Incomplete ->
  s = [] \/ held_without_character Utf8 s
  \/ exists cp, UTF8.step true (s ++ completion s) = Char cp (length (s ++ completion s)).
Proof.
  unfold UTF8.step at 1, UTF8.utf8_decode, UTF8.truncated_surrogate,
    UTF8.IS_CONTINUATION_BYTE.
  destruct s as [|b0 [|b1 [|b2 [|b3 s]]]]; [now left| | | |];
    cbn [negb andb length].
  - repeat split_cmp; try discriminate; intros _; right; right;
      unfold completion, second_byte; repeat split_cmp;
      cbn [app length]; unfold UTF8.step, UTF8.utf8_decode, UTF8.IS_CONTINUATION_BYTE;
      rewrite ?unsigned_80, ?unsigned_90, ?unsigned_a0;
      repeat split_cmp; eexists; reflexivity.
  - repeat split_cmp; try discriminate; intros _; right;
      first
        [ solve [left; eexists _, _; split; [reflexivity|]; lia]
        | right; unfold completion; repeat split_cmp;
          cbn [app length];
          unfold UTF8.step, UTF8.utf8_decode, UTF8.IS_CONTINUATION_BYTE;
          rewrite ?unsigned_80; repeat split_cmp; eexists; reflexivity ].
  - repeat split_cmp; try discriminate; intros _; right; right;
      unfold completion; cbn [app length];
      unfold UTF8.step, UTF8.utf8_decode, UTF8.IS_CONTINUATION_BYTE;
      rewrite ?unsigned_80; repeat split_cmp; eexists; reflexivity.
  - repeat split_cmp; discriminate.
Qed.

Lemma gbk_unresolved_cases (s : bytes) :
  GBK.step false s = Incomplete ->
  s = [] \/ held_without_character Gbk s \/ proper_prefix_of_character Gbk s.
Proof.
  unfold GBK.step at 1. destruct s as [|b s]; [now left|].
  split_cmp; [discriminate|].
  destruct s as [|b1 s]; [|destruct (GBK.GBK_DECODE _ _); discriminate].
  intros _. right.
  destruct (existsb (fun b2 =>
              match GBK.GBK_DECODE (byte.unsigned b) (byte.unsigned b2) with
              | Some _ => true
              | None => false
              end) all_bytes) eqn:E.
  - right. apply existsb_exists in E. destruct E as (b2 & _ & E).
    destruct (GBK.GBK_DECODE (byte.unsigned b) (byte.unsigned b2)) as [cp|] eqn:D;
      [|discriminate].
    exists [b2]. split; [discriminate|]. exists cp.
    cbn [app length decode_step]. unfold GBK.step.
    destruct (Z.ltb_spec (byte.unsigned b) 0x80); [lia|]. now rewrite D.
  - left. exists b. split; [reflexivity|]. split; [assumption|].
    intros b2.
    assert (Hn : forall x, In x all_bytes ->
              match GBK.GBK_DECODE (byte.unsigned b) (byte.unsigned x) with
              | Some _ => true
              | None => false
              end = false).
    { intros x Hx. destruct (GBK.GBK_DECODE (byte.unsigned b) (byte.unsigned x)) eqn:D;
        [|reflexivity].
      assert (Ht : existsb (fun b2 =>
                     match GBK.GBK_DECODE (byte.unsigned b) (byte.unsigned b2) with
                     | Some _ => true
                     | None => false
                     end) all_bytes = true)
        by (apply existsb_exists; exists x; split; [exact Hx | now rewrite D]).
      congruence. }
    specialize (Hn b2 (in_all_bytes b2)).
    destruct (GBK.GBK_DECODE (byte.unsigned b) (byte.unsigned b2)); [discriminate|reflexivity].
Qed.

Lemma unresolved_cases (c : codec) (buf : bytes) :
  unresolved c buf ->
  buf = [] \/ proper_prefix_of_character c buf \/ held_without_character c buf.
Proof.
  intros [->|Hu]; [now left|].
  destruct c; cbn [decode_step] in Hu.
  - destruct (utf8_unresolved_cases buf Hu) as [->|[Hx|(cp & Hp)]];
      [now left | now right; right | right; left].
    exists (completion buf). split.
    + destruct buf as [|b0 [|b1 [|b2 l]]]; unfold completion;
        repeat match goal with |- context [if ?x then _ else _] => destruct x end;
        discriminate.
    + exists cp. exact Hp.
  - destruct (gbk_unresolved_cases buf Hu) as [->|[Hx|Hp]];
      [now left | now right; right | now right; left].
Qed.

(** With such a tail no character begins. *)
Lemma held_without_character_begins_none (c : codec) (buf : bytes) :
  held_without_character c buf -> ~ proper_prefix_of_character c buf.
Proof.
  intros Hx (ext & Hne & cp & Hwf).
  destruct ext as [|e ext]; [congruence|].
  destruct c; cbn [held_without_character decode_step] in *.
  - destruct Hx as (b0 & b1 & -> & H0 & H1). revert Hwf.
    cbn [app length]. unfold UTF8.step, UTF8.utf8_decode, UTF8.IS_CONTINUATION_BYTE.
    rewrite H0. cbn [Z.ltb Z.eqb Z.compare Pos.compare Pos.compare_cont Pos.eqb].
    repeat split_cmp; discriminate.
  - destruct Hx as (b & -> & H0 & Hn). revert Hwf.
    cbn [app length]. unfold GBK.step.
    destruct (Z.ltb_spec (byte.unsigned b) 0x80); [lia|].
    rewrite Hn. discriminate.
Qed.

Lemma unresolved_kept (h : EncodingHandler) :
  unresolved (active_codec h) (carry h) -> carry_invariant_kept h.
Proof.
  intros Hu. destruct (unresolved_invariant h Hu) as (Hl & Hn & _).
  split; [exact Hl|]. split; [exact Hn|]. now apply unresolved_cases.
Qed.

Lemma reset_kept (h : EncodingHandler) :
  carry_invariant_kept h -> carry_invariant_kept (snd (Handler.reset h)).
Proof.
  intros Hinv.
  destruct (reset_cases h) as [(c & _ & ->)|(e & _ & ->)]; cbn [snd].
  - apply unresolved_kept. now left.
  - exact Hinv.
Qed.

Lemma set_encoding_kept (h : EncodingHandler) (value : string) :
  carry_invariant_kept h ->
  carry_invariant_kept (snd (Handler.set_encoding h value)).
Proof.
  intros Hinv. unfold Handler.set_encoding.
  destruct (negb (String.eqb (lower value) (_encoding h))); [|exact Hinv].
  apply reset_kept. exact Hinv.
Qed.

Lemma decode_kept (h : EncodingHandler) (data : bytes) :
  carry_invariant_kept h ->
  carry_invariant_kept (snd (Handler.decode h data false)).
Proof.
  intros Hinv. unfold Handler.decode, incremental_decode.
  destruct (buffer_decode (dec_codec (_decoder h)) (dec_errors (_decoder h)) false
              (dec_buffer (_decoder h) ++ data)) as [[text rest]|e] eqn:Hb;
    cbn [bind fst snd].
  - apply unresolved_kept.
    apply buffer_decode_rest in Hb. exact (proj1 (proj2 Hb)).
  - pose proof (reset_kept h Hinv) as Hr.
    destruct (Handler.reset h) as [[u|e'] h']; exact Hr.
Qed.

End Facts.
End CarryFacts.

(** * The claims *)

Import Hex HexFacts HandlerFacts EncodeFacts CarryFacts.

(** C2. For every byte sequence [b], [hex_to_bytes (bytes_to_hex b)] is
    [b]: the separators and the trailing space [bytes_to_hex] writes
    are removed by [hex_to_bytes], which is left with the two digits of
    each byte. *)
Theorem hex_roundtrip :
  forall b : bytes,
    hex_to_bytes (bytes_to_hex b) = Ok b
    /\ re_sub_non_hex (bytes_to_hex b) = flat_map format_02X b.
Proof.
  intros b. split; [|apply filter_bytes_to_hex].
  rewrite hex_to_bytes_refines. unfold hex_to_bytes_spec.
  rewrite filter_bytes_to_hex. unfold pad_odd.
  rewrite length_flat_format.
  replace (Nat.odd (2 * length b)) with false.
  - now rewrite parse_pairs_format.
  - symmetry. rewrite <- Nat.negb_even.
    replace (Nat.even (2 * length b)) with true; [reflexivity|].
    symmetry. apply Nat.even_spec. now exists (length b).
Qed.

(** C6. For every input string, [hex_to_bytes] returns, without
    raising, the bytes read two digits at a time from the input with
    every character outside [0-9A-Fa-f] removed and a ['0'] appended
    when the number of digits is odd; ["AA BB CC"] gives AA BB CC,
    ["ZZ"] gives no byte, ["ABC"] gives AB C0, and an input with no
    digit at all gives no byte. *)
Theorem hex_to_bytes_lenient :
  (forall hex_str : str, hex_to_bytes hex_str = Ok (hex_to_bytes_spec hex_str))
  /\ hex_to_bytes (lit "AA BB CC") = Ok [xaa; xbb; xcc]
  /\ hex_to_bytes (lit "ZZ") = Ok []
  /\ hex_to_bytes (lit "ABC") = Ok [xab; xc0]
  /\ hex_to_bytes (lit "") = Ok []
  /\ (forall s : str,
        hex_to_bytes (filter (fun c => negb (is_hex_char c)) s) = Ok []).
Proof.
  split; [exact hex_to_bytes_refines|].
  repeat (split; [reflexivity|]).
  intros s. unfold hex_to_bytes, re_sub_non_hex.
  replace (filter is_hex_char (filter (fun c => negb (is_hex_char c)) s))
    with (@nil Z); [reflexivity|].
  induction s as [|c s IH]; [reflexivity|].
  cbn [filter]. destruct (is_hex_char c) eqn:Hc; cbn [negb]; [exact IH|].
  cbn [filter]. now rewrite Hc.
Qed.

(** C7. [bytes_to_hex] writes, for each byte in turn, two upper-case
    hexadecimal digits (the high nibble, then the low one) and one
    space, so that a non-empty result ends in one space; for no byte it
    writes nothing, and for the byte AB it writes ["AB "]. *)
Theorem bytes_to_hex_format :
  (forall data : bytes,
     bytes_to_hex data = flat_map (fun b => format_02X b ++ lit " ") data)
  /\ (forall b : byte,
        exists hi lo,
          format_02X b = [hi; lo]
          /\ In hi (lit "0123456789ABCDEF") /\ In lo (lit "0123456789ABCDEF")
          /\ digit16 hi = Some (byte.unsigned b / 16)
          /\ digit16 lo = Some (byte.unsigned b mod 16))
  /\ bytes_to_hex [] = lit ""
  /\ bytes_to_hex [xab] = lit "AB ".
Proof.
  split; [exact bytes_to_hex_flat|].
  split; [|split; reflexivity].
  intros b. exists (hex_digit (byte.unsigned b / 16)), (hex_digit (byte.unsigned b mod 16)).
  destruct (nibbles_of_byte b) as [Hh Hl].
  split; [reflexivity|].
  assert (Hin : forall n, 0 <= n < 16 -> In (hex_digit n) (lit "0123456789ABCDEF")).
  { intros n Hn.
    assert (Hall : forallb (fun k => existsb (Z.eqb (hex_digit (Z.of_nat k)))
                                       (lit "0123456789ABCDEF"))
                     (seq 0 16) = true) by reflexivity.
    rewrite forallb_forall in Hall.
    specialize (Hall (Z.to_nat n)). rewrite Z2Nat.id in Hall by lia.
    apply existsb_exists in Hall; [|apply in_seq; lia].
    destruct Hall as (d & Hd & Heq). apply Z.eqb_eq in Heq. now rewrite Heq. }
  repeat split; auto using digit16_hex_digit.
Qed.

Section HandlerClaims.
Context {tables : GbkTables}.

(** C1. On a newly built decoder of either supported encoding, decoding
    a first piece and then a second piece, neither call final, returns
    two texts whose concatenation is the text one call on the joined
    pieces returns (and leaves the decoder in the same state). For the
    UTF-8 bytes of U+6D4B U+8BD5 cut inside the second character, the
    first call returns U+6D4B alone. *)
Theorem decode_split_concat :
  (forall (name : string) (h : EncodingHandler) (b1 b2 : bytes),
     Handler.init name = Ok h ->
     exists t1 h1 t2 h2,
       Handler.decode h b1 false = (Ok t1, h1)
       /\ Handler.decode h1 b2 false = (Ok t2, h2)
       /\ Handler.decode h (b1 ++ b2) false = (Ok (t1 ++ t2), h2))
  /\ (let h := fresh "utf-8" Utf8 in
      Handler.init "utf-8" = Ok h
      /\ Handler.decode h [xe6; xb5; x8b; xe8] false
         = (Ok [0x6D4B], with_carry h [xe8])
      /\ Handler.decode (with_carry h [xe8]) [xaf; x95] false
         = (Ok [0x8BD5], h)
      /\ Handler.decode h [xe6; xb5; x8b; xe8; xaf; x95] false
         = (Ok [0x6D4B; 0x8BD5], h)).
Proof.
  split.
  - intros name h b1 b2 Hinit.
    apply init_fresh in Hinit. destruct Hinit as (c & _ & ->).
    apply decode_app. discriminate.
  - repeat split; reflexivity.
Qed.

(** C3, amended. A chunk with bytes that are invalid for the active
    encoding is decoded, without a raise, to the text of the chunk with
    those bytes taken out: nothing is written in their place. A final
    call returns the text of the non-final call and holds nothing: the
    bytes that would have been carried are discarded. *)
Theorem decode_ignores_invalid :
  (forall (h : EncodingHandler) (pre bad post : bytes) (t0 : str)
          (h0 : EncodingHandler),
     dec_errors (_decoder h) = Ignore ->
     Handler.decode h pre false = (Ok t0, h0) ->
     carry h0 = [] ->
     bad <> [] ->
     decode_step (active_codec h) false (bad ++ post) = Invalid (length bad) ->
     exists text h',
       Handler.decode h (pre ++ bad ++ post) false = (Ok text, h')
       /\ Handler.decode h (pre ++ post) false = (Ok text, h'))
  /\ (forall (h : EncodingHandler) (data : bytes),
        dec_errors (_decoder h) = Ignore ->
        exists text h1 h2,
          Handler.decode h data false = (Ok text, h1)
          /\ Handler.decode h data true = (Ok text, h2)
          /\ carry h2 = []).
Proof.
  split.
  - intros h pre bad post t0 h0 Herr Hpre Hc Hbad Hstep.
    assert (Hns : dec_errors (_decoder h) <> Strict) by (rewrite Herr; discriminate).
    destruct (decode_nonstrict h pre false Hns) as (t & r & B & D).
    rewrite D in Hpre. injection Hpre as -> <-. cbn in Hc. subst r.
    destruct (decode_nonstrict h (pre ++ post) false Hns) as (text & rest & B' & D').
    exists text, (with_carry h rest). split; [|exact D'].
    apply decode_returns. rewrite <- B'.
    rewrite Herr in *. rewrite !app_assoc, <- (app_assoc _ bad post).
    now apply buffer_decode_drops with (t0 := t0).
  - intros h data Herr.
    assert (Hns : dec_errors (_decoder h) <> Strict) by (rewrite Herr; discriminate).
    destruct (decode_nonstrict h data false Hns) as (text & rest & B & D).
    exists text, (with_carry h rest), (with_carry h []).
    split; [exact D|]. split; [|reflexivity].
    apply decode_returns. rewrite Herr in *.
    now apply buffer_decode_final with (rest := rest).
Qed.

(** C4. Assigning to [encoding] a supported name other than the current
    one succeeds and leaves the handler as a newly built one: nothing is
    carried, and whatever the decoder held before has no influence on
    the result of any later call, under any encoding. *)
Theorem set_encoding_clears_carry :
  forall (h : EncodingHandler) (value : string) (c : codec),
    lookup value = Ok c ->
    lower value <> _encoding h ->
    exists h',
      Handler.set_encoding h value = (Ok tt, h')
      /\ carry h' = []
      /\ Handler.init value = Ok h'
      /\ forall (held : bytes) (calls : list call),
           outputs (snd (Handler.set_encoding (with_carry h held) value)) calls
           = outputs h' calls.
Proof.
  intros h value c Hc Hne.
  assert (Hset : forall d,
            Handler.set_encoding {| _encoding := _encoding h; _decoder := d |} value
            = (Ok tt, fresh value c)).
  { intros d. unfold Handler.set_encoding. cbn [_encoding _decoder].
    replace (String.eqb (lower value) (_encoding h)) with false
      by (symmetry; now apply String.eqb_neq).
    cbn [negb]. unfold Handler.reset, getincrementaldecoder.
    cbn [_encoding]. rewrite lookup_lower, Hc. reflexivity. }
  exists (fresh value c). repeat split.
  - destruct h as [enc d]. apply Hset.
  - apply init_fresh. eauto.
  - intros held calls. unfold with_carry. now rewrite Hset.
Qed.

(** C5. When the configured encoding is a supported one, [decode]
    returns a text for every chunk, final or not; and if the
    incremental decoder raises, the handler is left with a new decoder
    (nothing carried) and the text is the whole chunk decoded with
    errors replaced. *)
Theorem decode_never_raises :
  forall (h : EncodingHandler) (data : bytes) (final : bool) (c : codec),
    lookup (_encoding h) = Ok c ->
    exists text h',
      Handler.decode h data final = (Ok text, h')
      /\ (forall e, incremental_decode (_decoder h) data final = Raise e ->
            h' = {| _encoding := _encoding h;
                    _decoder := {| dec_codec := c; dec_errors := Ignore;
                                   dec_buffer := [] |} |}
            /\ carry h' = []
            /\ bytes_decode data (_encoding h) Replace = Ok text).
Proof.
  intros h data final c Hc. unfold Handler.decode.
  destruct (incremental_decode (_decoder h) data final) as [[text d]|e] eqn:Hd.
  - eexists _, _. split; [reflexivity|]. discriminate.
  - destruct (reset_cases h) as [(c' & Hc' & ->)|(e' & He' & _)]; [|congruence].
    rewrite Hc in Hc'. injection Hc' as <-. cbn [_encoding].
    unfold bytes_decode. rewrite Hc. cbn [bind].
    destruct (buffer_decode_total c Replace true data) as (text & rest & ->);
      [discriminate|].
    cbn [bind fst]. eexists _, _. split; [reflexivity|].
    intros _ _. repeat split.
Qed.

(** C9, amended. Construction, non-final [decode], [reset] and
    assignment to [encoding] keep the invariant that the decoder holds
    at most three bytes, that no run of them is a complete character of
    the active encoding, and that they are nothing, or the beginning
    and not the whole of a multi-byte character, or one of the two
    tails the runtime's decoders also keep: under UTF-8 the byte ED
    followed by a byte from A0 to BF, under GBK a byte of 0x80 or more
    with which no two-byte character begins. *)
Theorem carry_invariant_preserved :
  (forall (name : string) (h : EncodingHandler),
     Handler.init name = Ok h -> carry_invariant_kept h)
  /\ (forall (h : EncodingHandler),
        carry_invariant_kept h ->
        (forall data, carry_invariant_kept (snd (Handler.decode h data false)))
        /\ carry_invariant_kept (snd (Handler.reset h))
        /\ (forall value,
              carry_invariant_kept (snd (Handler.set_encoding h value)))).
Proof.
  split.
  - intros name h Hinit. apply init_fresh in Hinit.
    destruct Hinit as (c & _ & ->). apply unresolved_kept. now left.
  - intros h Hinv. split; [|split].
    + intros data. now apply decode_kept.
    + now apply reset_kept.
    + intros value. now apply set_encoding_kept.
Qed.

(** C10. Assigning to [encoding] a value whose lower-case form is the
    current encoding changes nothing: the handler, the bytes it carries
    included, is the same after the assignment. *)
Theorem set_encoding_same_is_noop :
  forall (h : EncodingHandler) (value : string),
    lower value = _encoding h ->
    Handler.set_encoding h value = (Ok tt, h)
    /\ carry (snd (Handler.set_encoding h value)) = carry h.
Proof.
  intros h value Heq. unfold Handler.set_encoding.
  rewrite Heq, String.eqb_refl. cbn [negb]. split; reflexivity.
Qed.

(** C8, amended. For a supported encoding, [text_to_bytes] returns:
    every character the encoding represents is encoded as the strict
    encoder does, every other character becomes the single byte ['?'],
    and the result has at least one byte for each character of the
    text. *)
Theorem text_to_bytes_substitutes :
  forall (text : str) (encoding : string) (c : codec),
    lookup encoding = Ok c ->
    let substituted :=
      flat_map (fun ch => match encode_step c ch with
                          | Some bs => bs
                          | None => [x3f]
                          end) text in
    text_to_bytes text encoding = Ok substituted
    /\ (length text <= length substituted)%nat
    /\ (forall data, str_encode text encoding Strict = Ok data ->
          substituted = data).
Proof.
  intros text encoding c Hc substituted.
  change substituted with (flat_map (encode_or_substitute c) text).
  split; [|split].
  - unfold text_to_bytes, str_encode. rewrite lookup_lower, Hc. cbn [bind].
    destruct (encode_loop c Strict text) as [data|e] eqn:Hs.
    + now rewrite (encode_loop_strict c text data Hs).
    + apply encode_loop_replace.
  - apply length_flat_map_ge.
  - intros data. unfold str_encode. rewrite Hc. cbn [bind].
    intros Hs. symmetry. now apply encode_loop_strict.
Qed.

End HandlerClaims.

(** ** The claims at concrete inputs *)

(** The GBK tables of the examples. *)
#[local] Existing Instance excerpt.

(** C1 at the GBK bytes of U+6D4B, cut between its two bytes. *)
Lemma decode_split_concat_witness :
  Handler.init "gbk" = Ok (fresh "gbk" Gbk)
  /\ exists t1 h1 t2 h2,
       Handler.decode (fresh "gbk" Gbk) [xb2] false = (Ok t1, h1)
       /\ Handler.decode h1 [xe2] false = (Ok t2, h2)
       /\ Handler.decode (fresh "gbk" Gbk) ([xb2] ++ [xe2]) false
          = (Ok (t1 ++ t2), h2).
Proof.
  split; [reflexivity|].
  apply (proj1 decode_split_concat "gbk"%string). reflexivity.
Defined.

(** C3 as stated fails: the byte FF, invalid in UTF-8, leaves nothing in
    the text, and a byte carried into a final call is discarded; no
    U+FFFD is written for either. *)
Lemma invalid_bytes_leave_no_placeholder :
  let h := fresh "utf-8" Utf8 in
  Handler.init "utf-8" = Ok h
  /\ decode_step Utf8 false [xff; x42] = Invalid 1
  /\ Handler.decode h [x41; xff; x42] false = (Ok [65; 66], h)
  /\ ~ In REPLACEMENT_CHARACTER [65; 66]
  /\ Handler.decode h [xe6] false = (Ok [], with_carry h [xe6])
  /\ Handler.decode (with_carry h [xe6]) [] true = (Ok [], h).
Proof.
  repeat split; try reflexivity.
  intros [H|[H|[]]]; discriminate H.
Qed.

(** The amended C3 at the same chunk, and at a final call on the first
    byte of a character. *)
Lemma decode_ignores_invalid_witness :
  let h := fresh "utf-8" Utf8 in
  dec_errors (_decoder h) = Ignore
  /\ Handler.decode h [x41] false = (Ok [65], h)
  /\ carry h = []
  /\ [xff] <> []
  /\ decode_step (active_codec h) false ([xff] ++ [x42]) = Invalid (length [xff])
  /\ (exists text h',
        Handler.decode h ([x41] ++ [xff] ++ [x42]) false = (Ok text, h')
        /\ Handler.decode h ([x41] ++ [x42]) false = (Ok text, h'))
  /\ (exists text h1 h2,
        Handler.decode h [xe6] false = (Ok text, h1)
        /\ Handler.decode h [xe6] true = (Ok text, h2)
        /\ carry h2 = []).
Proof.
  intros h.
  assert (H1 : dec_errors (_decoder h) = Ignore) by reflexivity.
  assert (H2 : Handler.decode h [x41] false = (Ok [65], h)) by reflexivity.
  assert (H3 : carry h = []) by reflexivity.
  assert (H4 : [xff] <> []) by discriminate.
  assert (H5 : decode_step (active_codec h) false ([xff] ++ [x42])
               = Invalid (length [xff])) by reflexivity.
  repeat (split; [assumption|]).
  split.
  - exact (proj1 decode_ignores_invalid h [x41] [xff] [x42] [65] h H1 H2 H3 H4 H5).
  - exact (proj2 decode_ignores_invalid h [xe6] H1).
Defined.

(** C4 at a GBK handler holding the first byte of a character. *)
Lemma set_encoding_clears_carry_witness :
  let h := with_carry (fresh "gbk" Gbk) [xb2] in
  lookup "UTF-8" = Ok Utf8
  /\ lower "UTF-8" <> _encoding h
  /\ exists h',
       Handler.set_encoding h "UTF-8" = (Ok tt, h')
       /\ carry h' = []
       /\ Handler.init "UTF-8" = Ok h'
       /\ forall (held : bytes) (calls : list call),
            outputs
              (snd (Handler.set_encoding (with_carry h held) "UTF-8"))
              calls
            = outputs h' calls.
Proof.
  intros h.
  assert (H1 : lookup "UTF-8" = Ok Utf8) by reflexivity.
  assert (H2 : lower "UTF-8" <> _encoding h) by discriminate.
  split; [exact H1|]. split; [exact H2|].
  exact (set_encoding_clears_carry h "UTF-8" Utf8 H1 H2).
Defined.

(** C5 at a handler whose decoder is strict, on a byte that makes it
    raise. *)
Lemma decode_never_raises_witness :
  let h := {| _encoding := "utf-8";
              _decoder := {| dec_codec := Utf8; dec_errors := Strict;
                             dec_buffer := [] |} |} in
  lookup (_encoding h) = Ok Utf8
  /\ incremental_decode (_decoder h) [xff] false
     = Raise UnicodeDecodeError
  /\ exists text h',
       Handler.decode h [xff] false = (Ok text, h')
       /\ (forall e,
             incremental_decode (_decoder h) [xff] false = Raise e ->
             h' = {| _encoding := _encoding h;
                     _decoder := {| dec_codec := Utf8; dec_errors := Ignore;
                                    dec_buffer := [] |} |}
             /\ carry h' = []
             /\ bytes_decode [xff] (_encoding h) Replace = Ok text).
Proof.
  intros h.
  assert (H1 : lookup (_encoding h) = Ok Utf8) by reflexivity.
  split; [exact H1|]. split; [reflexivity|].
  exact (decode_never_raises h [xff] false Utf8 H1).
Defined.

(** C8 as stated fails: the lone surrogate U+D800, which the UTF-8
    layout would give three bytes, is sent as the one byte ['?']; and
    so is U+20AC under GBK, where every character past U+007F that is
    represented takes two bytes ([gbk_encode_step_length]). *)
Lemma substitute_is_shorter_than_layout :
  text_to_bytes [0xD800] "utf-8" = Ok [x3f]
  /\ utf8_layout_length 0xD800 = 3%nat
  /\ (length [x3f] < utf8_layout_length 0xD800)%nat
  /\ text_to_bytes [0x20AC] "gbk" = Ok [x3f]
  /\ (length [x3f] < 2)%nat.
Proof. repeat split; cbn; lia. Qed.

(** The amended C8 at a text with one unrepresentable character. *)
Lemma text_to_bytes_substitutes_witness :
  lookup "UTF-8" = Ok Utf8
  /\ text_to_bytes [0xD800; 0x6D4B] "UTF-8"
     = Ok [x3f; xe6; xb5; x8b].
Proof.
  assert (H1 : lookup "UTF-8" = Ok Utf8) by reflexivity.
  split; [exact H1|].
  exact (proj1 (text_to_bytes_substitutes
                  [0xD800; 0x6D4B] "UTF-8" Utf8 H1)).
Defined.

(** C9 as stated fails: after the two bytes ED A0 the UTF-8 decoder
    holds them, and no byte sequence that begins with them is a
    character. The GBK decoder likewise holds the byte FF, with which
    no character of the tables begins. *)
Lemma held_bytes_need_not_begin_a_character :
  let h := fresh "utf-8" Utf8 in
  let g := fresh "gbk" Gbk in
  Handler.init "utf-8" = Ok h
  /\ carry_invariant_spec h
  /\ Handler.decode h [xed; xa0] false = (Ok [], with_carry h [xed; xa0])
  /\ ~ carry_invariant_spec (snd (Handler.decode h [xed; xa0] false))
  /\ Handler.init "gbk" = Ok g
  /\ Handler.decode g [xff] false = (Ok [], with_carry g [xff])
  /\ ~ carry_invariant_spec (snd (Handler.decode g [xff] false)).
Proof.
  intros h g. split; [reflexivity|]. split; [|split; [reflexivity|]].
  - destruct (fresh_invariant "utf-8" Utf8) as (Hl & Hn & _).
    split; [exact Hl|]. split; [exact Hn|]. now left.
  - split; [|split; [reflexivity|split; [reflexivity|]]].
    + change (snd (Handler.decode h [xed; xa0] false))
        with (with_carry h [xed; xa0]).
      intros (_ & _ & [Hnil|(ext & Hext & cp & Hwf)]); [discriminate Hnil|].
      destruct ext as [|b ext]; [congruence|].
      change (Invalid 1 = Char cp (length (carry (with_carry h [xed; xa0]) ++ b :: ext)))
        in Hwf.
      discriminate Hwf.
    + change (snd (Handler.decode g [xff] false)) with (with_carry g [xff]).
      intros (_ & _ & [Hnil|(ext & Hext & cp & Hwf)]); [discriminate Hnil|].
      destruct ext as [|b ext]; [congruence|].
      change (Invalid 1 = Char cp (length (carry (with_carry g [xff]) ++ b :: ext)))
        in Hwf.
      discriminate Hwf.
Qed.

(** The amended C9 at a new UTF-8 handler. *)
Lemma carry_invariant_preserved_witness :
  let h := fresh "utf-8" Utf8 in
  Handler.init "utf-8" = Ok h
  /\ carry_invariant_kept h
  /\ carry_invariant_kept (snd (Handler.decode h [xed; xa0] false))
  /\ carry_invariant_kept (snd (Handler.reset h))
  /\ carry_invariant_kept (snd (Handler.set_encoding h "gbk")).
Proof.
  intros h.
  assert (H0 : Handler.init "utf-8" = Ok h) by reflexivity.
  pose proof (proj1 carry_invariant_preserved "utf-8"%string h H0) as H1.
  destruct (proj2 carry_invariant_preserved h H1) as (Hd & Hr & Hs).
  split; [exact H0|]. split; [exact H1|]. split; [apply Hd|].
  split; [exact Hr | apply Hs].
Defined.

(** C10 at a GBK handler holding a byte, assigned ["GBK"]. *)
Lemma set_encoding_same_is_noop_witness :
  let h := with_carry (fresh "gbk" Gbk) [xb2] in
  lower "GBK" = _encoding h
  /\ Handler.set_encoding h "GBK" = (Ok tt, h)
  /\ carry (snd (Handler.set_encoding h "GBK")) = [xb2].
Proof.
  intros h.
  assert (H1 : lower "GBK" = _encoding h) by reflexivity.
  split; [exact H1|].
  exact (set_encoding_same_is_noop h "GBK" H1).
Defined.

(** * Further properties of the codec core *)

Module StreamFacts.
Import LoopFacts CodecFacts.
Section Facts.
Context {tables : GbkTables}.

Lemma unresolved_decodes_to_nothing (c : codec) (err : errors) (buf : bytes) :
  unresolved c buf -> buffer_decode c err false buf = Ok ([], buf).
Proof.
  intros [->|Hu]; [reflexivity|].
  destruct buf as [|b buf]; [reflexivity|].
  unfold buffer_decode.
  rewrite (run_cons _ _ (decode_step_progress c false)), Hu. reflexivity.
Qed.

Lemma with_carry_same (h : EncodingHandler) : with_carry h (carry h) = h.
Proof. destruct h as [enc [c e buf]]. reflexivity. Qed.

Lemma fresh_well_kept (name : string) (c : codec) : well_kept (fresh name c).
Proof. split; [reflexivity | now left]. Qed.

Lemma init_well_kept (name : string) (h : EncodingHandler) :
  Handler.init name = Ok h -> well_kept h.
Proof.
  intros H. apply init_fresh in H. destruct H as (c & _ & ->).
  apply fresh_well_kept.
Qed.

(** A call on a well-kept handler: what the loop returns on the held
    bytes followed by the chunk. *)
Lemma decode_well_kept (h : EncodingHandler) (data : bytes) (final : bool) :
  well_kept h ->
  exists text rest,
    buffer_decode (active_codec h) Ignore final (carry h ++ data) = Ok (text, rest)
    /\ Handler.decode h data final = (Ok text, with_carry h rest).
Proof.
  intros [Herr _].
  assert (Hns : dec_errors (_decoder h) <> Strict) by (rewrite Herr; discriminate).
  destruct (decode_nonstrict h data final Hns) as (text & rest & B & D).
  rewrite Herr in B. eauto.
Qed.

Lemma decode_keeps_well_kept (h : EncodingHandler) (data : bytes) :
  well_kept h -> well_kept (snd (Handler.decode h data false)).
Proof.
  intros Hk. destruct (decode_well_kept h data false Hk) as (text & rest & B & ->).
  destruct Hk as [Herr _]. split; [exact Herr|].
  apply buffer_decode_rest in B. exact (proj1 (proj2 B)).
Qed.

Lemma decode_empty_chunk (h : EncodingHandler) :
  well_kept h -> Handler.decode h [] false = (Ok [], h).
Proof.
  intros [Herr Hu].
  rewrite (decode_returns h [] false [] (carry h)).
  - now rewrite with_carry_same.
  - rewrite app_nil_r. now apply unresolved_decodes_to_nothing.
Qed.

Lemma decode_all_is_decode (chunks : list bytes) :
  forall h : EncodingHandler,
    well_kept h ->
    decode_all h chunks = Handler.decode h (concat chunks) false.
Proof.
  induction chunks as [|data rest IH]; intros h Hk.
  - cbn [decode_all concat]. symmetry. now apply decode_empty_chunk.
  - cbn [decode_all concat].
    assert (Hns : dec_errors (_decoder h) <> Strict)
      by (destruct Hk as [-> _]; discriminate).
    destruct (decode_app h data (concat rest) Hns) as (t1 & h1 & t2 & h2 & D1 & D2 & D).
    rewrite D1, D.
    assert (Hk1 : well_kept h1).
    { pose proof (decode_keeps_well_kept h data Hk) as K. now rewrite D1 in K. }
    rewrite (IH h1 Hk1), D2. reflexivity.
Qed.

End Facts.
End StreamFacts.

Module TextFacts.
Import LoopFacts CodecFacts.
Section Loop.
Variable step : bytes -> unit_result.
Variable err : errors.
Hypothesis step_progress : forall s n,
  s <> [] ->
  (exists cp, step s = Char cp n) \/ step s = Invalid n ->
  (1 <= n <= length s)%nat.

(** The loop writes no more characters than it consumes bytes. *)
Lemma run_length (s : bytes) :
  forall text rest,
    run_loop step err s = Ok (text, rest) ->
    (length text + length rest <= length s)%nat.
Proof.
  remember (length s) as m eqn:Hm. revert s Hm.
  induction m as [m IH] using lt_wf_ind. intros s Hm text rest Hrun.
  destruct s as [|b s].
  - rewrite run_nil in Hrun. injection Hrun as <- <-. cbn [length] in *. lia.
  - rewrite (run_cons _ _ step_progress) in Hrun.
    destruct (step (b :: s)) as [cp n|n|] eqn:Hs.
    + assert (Hn : (1 <= n <= length (b :: s))%nat)
        by (apply step_progress; [discriminate | left; eauto]).
      pose proof (length_skipn_lt n b s (proj1 Hn)) as Hlt.
      destruct (run_loop step err (skipn n (b :: s))) as [[x r]|e] eqn:Hr;
        [|discriminate].
      cbn in Hrun. injection Hrun as <- <-.
      pose proof (IH (length (skipn n (b :: s))) ltac:(cbn [length] in Hm; lia)
                    (skipn n (b :: s)) eq_refl x r Hr) as Hx.
      cbn [length] in *. lia.
    + assert (Hn : (1 <= n <= length (b :: s))%nat)
        by (apply step_progress; [discriminate | right; eauto]).
      pose proof (length_skipn_lt n b s (proj1 Hn)) as Hlt.
      assert (Hsub : forall x r,
                 run_loop step err (skipn n (b :: s)) = Ok (x, r) ->
                 (length x + length r <= length s)%nat).
      { intros x r Hr.
        pose proof (IH (length (skipn n (b :: s))) ltac:(cbn [length] in Hm; lia)
                      (skipn n (b :: s)) eq_refl x r Hr). lia. }
      clear IH. revert Hrun Hsub. generalize (run_loop step err (skipn n (b :: s))).
      intros q Hrun Hsub.
      destruct err; [discriminate| |].
      * pose proof (Hsub _ _ Hrun). cbn [length] in *. lia.
      * destruct q as [[x r]|e]; [|discriminate].
        cbn in Hrun. injection Hrun as <- <-.
        pose proof (Hsub _ _ eq_refl). cbn [length] in *. lia.
    + injection Hrun as <- <-. cbn [length] in *. lia.
Qed.

(** A property of every character the codec finds, and of U+FFFD, is a
    property of the text. *)
Variable P : Z -> Prop.
Hypothesis step_P : forall s cp n, step s = Char cp n -> P cp.
Hypothesis replacement_P : P REPLACEMENT_CHARACTER.

Lemma run_Forall (s : bytes) :
  forall text rest,
    run_loop step err s = Ok (text, rest) -> Forall P text.
Proof.
  remember (length s) as m eqn:Hm. revert s Hm.
  induction m as [m IH] using lt_wf_ind. intros s Hm text rest Hrun.
  destruct s as [|b s].
  - rewrite run_nil in Hrun. injection Hrun as <- <-. constructor.
  - rewrite (run_cons _ _ step_progress) in Hrun.
    destruct (step (b :: s)) as [cp n|n|] eqn:Hs.
    + assert (Hn : (1 <= n <= length (b :: s))%nat)
        by (apply step_progress; [discriminate | left; eauto]).
      pose proof (length_skipn_lt n b s (proj1 Hn)) as Hlt.
      destruct (run_loop step err (skipn n (b :: s))) as [[x r]|e] eqn:Hr;
        [|discriminate].
      cbn in Hrun. injection Hrun as <- <-.
      constructor; [eapply step_P; eauto|].
      apply (IH (length (skipn n (b :: s))) ltac:(cbn [length] in Hm; lia)
               (skipn n (b :: s)) eq_refl x r Hr).
    + assert (Hn : (1 <= n <= length (b :: s))%nat)
        by (apply step_progress; [discriminate | right; eauto]).
      pose proof (length_skipn_lt n b s (proj1 Hn)) as Hlt.
      assert (Hsub : forall x r,
                 run_loop step err (skipn n (b :: s)) = Ok (x, r) -> Forall P x).
      { intros x r Hr.
        apply (IH (length (skipn n (b :: s))) ltac:(cbn [length] in Hm; lia)
                 (skipn n (b :: s)) eq_refl x r Hr). }
      clear IH. revert Hrun Hsub. generalize (run_loop step err (skipn n (b :: s))).
      intros q Hrun Hsub.
      destruct err; [discriminate| |].
      * exact (Hsub _ _ Hrun).
      * destruct q as [[x r]|e]; [|discriminate].
        cbn in Hrun. injection Hrun as <- <-.
        constructor; [exact replacement_P | exact (Hsub _ _ eq_refl)].
    + injection Hrun as <- <-. constructor.
Qed.

End Loop.
End TextFacts.

Module Utf8Facts.
Import CodecFacts HexFacts.

Lemma shl6 (x : Z) : Z.shiftl x 6 = x * 64.
Proof. now rewrite Z.shiftl_mul_pow2 by lia. Qed.

Lemma shl12 (x : Z) : Z.shiftl x 12 = x * 4096.
Proof. now rewrite Z.shiftl_mul_pow2 by lia. Qed.

Lemma shl18 (x : Z) : Z.shiftl x 18 = x * 262144.
Proof. now rewrite Z.shiftl_mul_pow2 by lia. Qed.

Lemma shr6 (x : Z) : Z.shiftr x 6 = x / 64.
Proof. now rewrite Z.shiftr_div_pow2 by lia. Qed.

Lemma shr12 (x : Z) : Z.shiftr x 12 = x / 64 / 64.
Proof. rewrite Z.shiftr_div_pow2, Z.div_div by lia. reflexivity. Qed.

Lemma shr18 (x : Z) : Z.shiftr x 18 = x / 64 / 64 / 64.
Proof. rewrite Z.shiftr_div_pow2, !Z.div_div by lia. reflexivity. Qed.

Lemma land_3f (x : Z) : Z.land x 0x3F = x mod 64.
Proof. change 0x3F with (Z.ones 6). now rewrite Z.land_ones by lia. Qed.

(** A check run on every number below [n] holds of every number below
    [n]. *)
Lemma checked_below (P : Z -> bool) (n : nat) :
  forallb (fun k => P (Z.of_nat k)) (seq 0 n) = true ->
  forall x, 0 <= x < Z.of_nat n -> P x = true.
Proof.
  intros Hall x Hx. rewrite forallb_forall in Hall.
  specialize (Hall (Z.to_nat x)). rewrite Z2Nat.id in Hall by lia.
  apply Hall. apply in_seq. lia.
Qed.

Lemma lor_80 (x : Z) : 0 <= x < 64 -> Z.lor 0x80 x = 0x80 + x.
Proof.
  intros Hx. apply Z.eqb_eq.
  apply (checked_below (fun x => Z.lor 0x80 x =? 0x80 + x) 64); [reflexivity | lia].
Qed.

Lemma lor_c0 (x : Z) : 0 <= x < 32 -> Z.lor 0xC0 x = 0xC0 + x.
Proof.
  intros Hx. apply Z.eqb_eq.
  apply (checked_below (fun x => Z.lor 0xC0 x =? 0xC0 + x) 32); [reflexivity | lia].
Qed.

Lemma lor_e0 (x : Z) : 0 <= x < 16 -> Z.lor 0xE0 x = 0xE0 + x.
Proof.
  intros Hx. apply Z.eqb_eq.
  apply (checked_below (fun x => Z.lor 0xE0 x =? 0xE0 + x) 16); [reflexivity | lia].
Qed.

Lemma lor_f0 (x : Z) : 0 <= x < 8 -> Z.lor 0xF0 x = 0xF0 + x.
Proof.
  intros Hx. apply Z.eqb_eq.
  apply (checked_below (fun x => Z.lor 0xF0 x =? 0xF0 + x) 8); [reflexivity | lia].
Qed.

Lemma unsigned_small (v : Z) : 0 <= v < 256 -> byte.unsigned (byte.of_Z v) = v.
Proof.
  intros Hv. rewrite byte.unsigned_of_Z. unfold byte.wrap.
  apply Z.mod_small. change (2 ^ 8) with 256. lia.
Qed.

(** What [utf8_decode] accepts is a scalar value in its shortest form. *)
Lemma utf8_decode_scalar (s : bytes) (ch : Z) (n : nat) :
  UTF8.utf8_decode s = UTF8.Decoded ch n ->
  is_scalar ch /\ n = utf8_layout_length ch.
Proof.
  unfold UTF8.utf8_decode, UTF8.IS_CONTINUATION_BYTE, is_scalar, utf8_layout_length.
  destruct s as [|b0 [|b1 [|b2 [|b3 s]]]]; try discriminate;
    try pose proof (byte_range b0); try pose proof (byte_range b1);
    try pose proof (byte_range b2); try pose proof (byte_range b3);
    rewrite ?shl6, ?shl12, ?shl18;
    repeat split_cmp; try discriminate;
    intros E; injection E as <- <-;
    repeat split_cmp; repeat split; lia.
Qed.

(** The encoder's bytes for a scalar value, with anything after them,
    are decoded to that value. *)
Lemma utf8_encode_decode_step (ch : Z) (rest : bytes) :
  is_scalar ch ->
  exists bs,
    UTF8.encode_step ch = Some bs
    /\ bs <> []
    /\ UTF8.utf8_decode (bs ++ rest) = UTF8.Decoded ch (length bs).
Proof.
  intros [Hr Hs].
  unfold UTF8.encode_step, UTF8.IS_SURROGATE.
  rewrite ?shr6, ?shr12, ?shr18, ?land_3f.
  pose proof (Z.div_mod ch 64 ltac:(lia)) as E1.
  pose proof (Z.mod_pos_bound ch 64 ltac:(lia)) as B1.
  pose proof (Z.div_mod (ch / 64) 64 ltac:(lia)) as E2.
  pose proof (Z.mod_pos_bound (ch / 64) 64 ltac:(lia)) as B2.
  pose proof (Z.div_mod (ch / 64 / 64) 64 ltac:(lia)) as E3.
  pose proof (Z.mod_pos_bound (ch / 64 / 64) 64 ltac:(lia)) as B3.
  revert E1 B1 E2 B2 E3 B3.
  generalize (ch / 64 / 64 / 64), ((ch / 64 / 64) mod 64).
  generalize (ch / 64 / 64), ((ch / 64) mod 64).
  generalize (ch / 64), (ch mod 64).
  intros q1 r1 q2 r2 q3 r3 E1 B1 E2 B2 E3 B3.
  destruct (Z.ltb_spec ch 0x80);
    [|destruct (Z.ltb_spec ch 0x0800);
      [|replace ((0xD800 <=? ch) && (ch <=? 0xDFFF)) with false
          by (symmetry; apply andb_false_iff;
              destruct Hs; [left; apply Z.leb_gt | right; apply Z.leb_gt]; lia);
        destruct (Z.ltb_spec ch 0x10000)]];
    eexists; (split; [reflexivity|]); (split; [discriminate|]);
    cbn [app length]; unfold UTF8.utf8_decode, UTF8.IS_CONTINUATION_BYTE.
  - rewrite unsigned_small by lia. repeat split_cmp. reflexivity.
  - rewrite lor_c0, lor_80 by lia. rewrite !unsigned_small by lia.
    rewrite ?shl6. repeat split_cmp; f_equal; lia.
  - rewrite lor_e0, !lor_80 by lia. rewrite !unsigned_small by lia.
    rewrite ?shl6, ?shl12. repeat split_cmp; f_equal; lia.
  - rewrite lor_f0, !lor_80 by lia. rewrite !unsigned_small by lia.
    rewrite ?shl6, ?shl12, ?shl18. repeat split_cmp; f_equal; lia.
Qed.

End Utf8Facts.

Module RoundTripFacts.
Import LoopFacts CodecFacts HexFacts TextFacts Utf8Facts StreamFacts.
Section Facts.
Context {tables : GbkTables}.

Lemma utf8_step_char_scalar (final : bool) (s : bytes) (cp : Z) (n : nat) :
  UTF8.step final s = Char cp n -> is_scalar cp.
Proof.
  unfold UTF8.step.
  destruct (UTF8.utf8_decode s) as [ch k| | |k] eqn:Hd.
  - intros E. injection E as <- <-. now apply utf8_decode_scalar in Hd.
  - destruct final; discriminate.
  - discriminate.
  - destruct k as [|[|k]]; try discriminate.
    destruct (negb final && UTF8.truncated_surrogate s); discriminate.
Qed.

Lemma replacement_scalar : is_scalar REPLACEMENT_CHARACTER.
Proof. unfold is_scalar, REPLACEMENT_CHARACTER. lia. Qed.

(** The UTF-8 decoder writes scalar values only. *)
Lemma utf8_text_scalar (err : errors) (final : bool) (s : bytes) (text : str)
    (rest : bytes) :
  buffer_decode Utf8 err final s = Ok (text, rest) -> Forall is_scalar text.
Proof.
  apply (run_Forall (UTF8.step final) err (utf8_step_progress final) is_scalar).
  - apply utf8_step_char_scalar.
  - apply replacement_scalar.
Qed.

Lemma buffer_decode_length (c : codec) (err : errors) (final : bool) (s : bytes)
    (text : str) (rest : bytes) :
  buffer_decode c err final s = Ok (text, rest) ->
  (length text + length rest <= length s)%nat.
Proof.
  apply (run_length (decode_step c final) err). apply decode_step_progress.
Qed.

(** A chunk that begins with the encoder's bytes of a character. *)
Lemma buffer_decode_char (c : codec) (err : errors) (final : bool) (ch : Z)
    (bs data : bytes) :
  bs <> [] ->
  decode_step c final (bs ++ data) = Char ch (length bs) ->
  buffer_decode c err final (bs ++ data)
  = (r <- buffer_decode c err final data ;; Ok (ch :: fst r, snd r)).
Proof.
  intros Hne Hstep. destruct bs as [|b bs]; [congruence|].
  unfold buffer_decode. change ((b :: bs) ++ data) with (b :: (bs ++ data)).
  rewrite (run_cons _ _ (decode_step_progress c final)).
  change (b :: (bs ++ data)) with ((b :: bs) ++ data).
  rewrite Hstep, skipn_app, skipn_all, Nat.sub_diag. reflexivity.
Qed.

(** Encoding a text of scalar values to UTF-8 and decoding the bytes
    gives the text back, under every error handler. *)
Lemma utf8_encode_then_decode (text : str) :
  Forall is_scalar text ->
  exists data,
    encode_loop Utf8 Strict text = Ok data
    /\ forall err final, buffer_decode Utf8 err final data = Ok (text, []).
Proof.
  induction 1 as [|ch text Hch _ IH].
  - exists []. split; reflexivity.
  - destruct IH as (data & He & Hd).
    destruct (utf8_encode_decode_step ch data Hch) as (bs & Hbs & Hne & Hdec).
    exists (bs ++ data). split.
    + cbn [encode_loop encode_step]. rewrite Hbs, He. reflexivity.
    + intros err final.
      rewrite (buffer_decode_char Utf8 err final ch bs data Hne).
      * rewrite Hd. reflexivity.
      * cbn [decode_step]. unfold UTF8.step. rewrite Hdec. reflexivity.
Qed.

(** Bytes below 0x80 are characters of their own in both codecs. *)
Lemma ascii_decode_step (c : codec) (final : bool) (b : byte) (s : bytes) :
  byte.unsigned b < 0x80 ->
  decode_step c final (b :: s) = Char (byte.unsigned b) 1.
Proof.
  intros Hb. destruct c; cbn [decode_step].
  - unfold UTF8.step, UTF8.utf8_decode.
    destruct (Z.ltb_spec (byte.unsigned b) 0x80); [reflexivity | lia].
  - unfold GBK.step.
    destruct (Z.ltb_spec (byte.unsigned b) 0x80); [reflexivity | lia].
Qed.

Lemma ascii_buffer_decode (c : codec) (err : errors) (final : bool) (data : bytes) :
  Forall (fun b => byte.unsigned b < 0x80) data ->
  buffer_decode c err final data = Ok (map byte.unsigned data, []).
Proof.
  induction 1 as [|b data Hb _ IH]; [reflexivity|].
  change (b :: data) with ([b] ++ data).
  rewrite (buffer_decode_char c err final (byte.unsigned b) [b] data);
    [|discriminate|now apply ascii_decode_step].
  rewrite IH. reflexivity.
Qed.

Lemma ascii_encode_step (c : codec) (ch : Z) :
  0 <= ch < 0x80 -> encode_step c ch = Some [byte.of_Z ch].
Proof.
  intros Hch. destruct c; cbn [encode_step].
  - unfold UTF8.encode_step.
    destruct (Z.ltb_spec ch 0x80); [reflexivity | lia].
  - unfold GBK.encode_step.
    destruct (Z.ltb_spec ch 0x80); [reflexivity | lia].
Qed.

Lemma ascii_encode_loop (c : codec) (err : errors) (text : str) :
  Forall (fun ch => 0 <= ch < 0x80) text ->
  encode_loop c err text = Ok (map byte.of_Z text).
Proof.
  induction 1 as [|ch text Hch _ IH]; [reflexivity|].
  cbn [encode_loop map]. rewrite (ascii_encode_step c ch Hch), IH. reflexivity.
Qed.

End Facts.
End RoundTripFacts.

Module HexMoreFacts.
Import Hex HexFacts.

Lemma parse_pairs_app (d1 d2 : str) :
  Nat.even (length d1) = true ->
  parse_pairs (d1 ++ d2) = parse_pairs d1 ++ parse_pairs d2.
Proof.
  revert d1. fix IH 1. intros d1 Hev.
  destruct d1 as [|a [|b rest]]; [reflexivity | discriminate |].
  cbn [app parse_pairs]. rewrite (IH rest Hev). reflexivity.
Qed.

Lemma length_parse_pairs (d : str) : length (parse_pairs d) = Nat.div2 (length d).
Proof.
  revert d. fix IH 1. intros d.
  destruct d as [|a [|b rest]]; [reflexivity | reflexivity |].
  cbn [parse_pairs length Nat.div2]. now rewrite (IH rest).
Qed.

Lemma pad_odd_of_even (d : str) : Nat.even (length d) = true -> pad_odd d = d.
Proof.
  intros Hev. unfold pad_odd. now rewrite <- Nat.negb_even, Hev.
Qed.

Lemma pad_odd_app (d1 d2 : str) :
  Nat.even (length d1) = true -> pad_odd (d1 ++ d2) = d1 ++ pad_odd d2.
Proof.
  intros Hev. unfold pad_odd. rewrite length_app, Nat.odd_add.
  rewrite <- (Nat.negb_even (length d1)), Hev. cbn [negb xorb].
  destruct (Nat.odd (length d2)); [now rewrite app_assoc | reflexivity].
Qed.

Lemma div2_pad_odd (d : str) :
  Nat.div2 (length (pad_odd d)) = Nat.div2 (length d + 1).
Proof.
  unfold pad_odd. destruct (Nat.odd (length d)) eqn:Hodd.
  - rewrite length_app. reflexivity.
  - assert (Hev : Nat.even (length d) = true)
      by (rewrite <- Nat.negb_odd, Hodd; reflexivity).
    apply Nat.even_spec in Hev. destruct Hev as [m ->].
    rewrite Nat.add_1_r, Nat.div2_succ_double, Nat.div2_double. reflexivity.
Qed.

Lemma is_hex_upper (c : Z) : is_hex_char (upper_hex c) = is_hex_char c.
Proof.
  unfold upper_hex.
  destruct ((97 <=? c) && (c <=? 102)) eqn:E; [|reflexivity].
  apply andb_prop in E. destruct E as [E1 E2]. apply Z.leb_le in E1, E2.
  unfold is_hex_char. repeat CodecFacts.split_cmp; reflexivity.
Qed.

Lemma nibble_upper (c : Z) : nibble (upper_hex c) = nibble c.
Proof.
  unfold upper_hex.
  destruct ((97 <=? c) && (c <=? 102)) eqn:E; [|reflexivity].
  apply andb_prop in E. destruct E as [E1 E2]. apply Z.leb_le in E1, E2.
  unfold nibble, digit16. repeat CodecFacts.split_cmp; lia.
Qed.

Lemma filter_map_upper (s : str) :
  filter is_hex_char (map upper_hex s) = map upper_hex (filter is_hex_char s).
Proof.
  induction s as [|c s IH]; [reflexivity|].
  cbn [map filter]. rewrite is_hex_upper.
  destruct (is_hex_char c); cbn [map]; now rewrite IH.
Qed.

Lemma parse_pairs_map_upper (d : str) :
  parse_pairs (map upper_hex d) = parse_pairs d.
Proof.
  revert d. fix IH 1. intros d.
  destruct d as [|a [|b rest]]; [reflexivity | reflexivity |].
  cbn [map parse_pairs]. now rewrite !nibble_upper, (IH rest).
Qed.

Lemma pad_odd_map_upper (d : str) :
  pad_odd (map upper_hex d) = map upper_hex (pad_odd d).
Proof.
  unfold pad_odd. rewrite length_map.
  destruct (Nat.odd (length d)); [|reflexivity].
  now rewrite map_app.
Qed.

End HexMoreFacts.

Module WindowFacts.
Import Window StreamFacts HexFacts.
Section Facts.
Context {tables : GbkTables}.

Lemma set_handler_same (w : MainWindow) : set_handler w (_encoding_handler w) = w.
Proof. destruct w. reflexivity. Qed.

Lemma reset_keeps_well_kept (h : EncodingHandler) :
  well_kept h -> well_kept (snd (Handler.reset h)).
Proof.
  intros Hk.
  destruct (reset_cases h) as [(c & _ & ->)|(e & _ & ->)]; cbn [snd].
  - split; [reflexivity | now left].
  - exact Hk.
Qed.

Lemma set_encoding_keeps_well_kept (h : EncodingHandler) (value : string) :
  well_kept h -> well_kept (snd (Handler.set_encoding h value)).
Proof.
  intros Hk. unfold Handler.set_encoding.
  destruct (negb (String.eqb (lower value) (_encoding h))); [|exact Hk].
  apply reset_keeps_well_kept. exact Hk.
Qed.

(** Assignment of a supported name and a reset after it: a new handler,
    whether the name was the current one or not. *)
Lemma set_then_reset (h : EncodingHandler) (value : string) (c : codec) :
  lookup value = Ok c ->
  exists h1,
    Handler.set_encoding h value = (Ok tt, h1)
    /\ Handler.reset h1 = (Ok tt, fresh value c).
Proof.
  intros Hc. unfold Handler.set_encoding.
  assert (Hr : forall d,
            Handler.reset {| _encoding := lower value; _decoder := d |}
            = (Ok tt, fresh value c)).
  { intros d. unfold Handler.reset, getincrementaldecoder. cbn [_encoding].
    rewrite lookup_lower, Hc. reflexivity. }
  destruct (String.eqb (lower value) (_encoding h)) eqn:E; cbn [negb].
  - exists h. split; [reflexivity|].
    apply String.eqb_eq in E. destruct h as [enc d]. cbn [_encoding] in E.
    subst enc. apply Hr.
  - exists (fresh value c). split; [apply Hr|]. apply Hr.
Qed.

(** The texts of a run of signals, in either mode. *)
Lemma receive_all_hex (w : MainWindow) (chunks : list bytes) :
  str_eqb (_receive_mode w) HEX_MODE = true ->
  receive_all w chunks = (Ok (Hex.bytes_to_hex (concat chunks)), w).
Proof.
  intros Hm. induction chunks as [|data rest IH]; [reflexivity|].
  cbn [receive_all concat]. unfold _on_data_received. rewrite Hm, IH.
  rewrite !bytes_to_hex_flat, flat_map_app. reflexivity.
Qed.

Lemma receive_all_text (chunks : list bytes) :
  forall w : MainWindow,
    str_eqb (_receive_mode w) HEX_MODE = false ->
    receive_all w chunks
    = (fst (decode_all (_encoding_handler w) chunks),
       set_handler w (snd (decode_all (_encoding_handler w) chunks))).
Proof.
  induction chunks as [|data rest IH]; intros w Hm.
  - cbn [receive_all decode_all fst snd]. now rewrite set_handler_same.
  - cbn [receive_all decode_all]. unfold _on_data_received. rewrite Hm.
    destruct (Handler.decode (_encoding_handler w) data false) as [[text|e] h1];
      [|reflexivity].
    rewrite (IH (set_handler w h1)) by exact Hm. cbn [set_handler _encoding_handler].
    destruct (decode_all h1 rest) as [[text'|e] h2]; reflexivity.
Qed.

End Facts.
End WindowFacts.

Module SendFacts.
Import EncodeFacts.
Section Facts.
Context {tables : GbkTables}.

Lemma text_to_bytes_flat (text : str) (name : string) (c : codec) :
  lookup name = Ok c ->
  text_to_bytes text name = Ok (flat_map (encode_or_substitute c) text).
Proof.
  intros Hc. unfold text_to_bytes, str_encode. rewrite lookup_lower, Hc. cbn [bind].
  destruct (encode_loop c Strict text) as [data|e] eqn:Hs.
  - now rewrite (encode_loop_strict c text data Hs).
  - apply encode_loop_replace.
Qed.

Lemma text_to_bytes_strict (text : str) (name : string) (c : codec) (data : bytes) :
  lookup name = Ok c ->
  encode_loop c Strict text = Ok data ->
  text_to_bytes text name = Ok data.
Proof.
  intros Hc Hs. unfold text_to_bytes, str_encode.
  rewrite lookup_lower, Hc. cbn [bind]. now rewrite Hs.
Qed.

End Facts.
End SendFacts.

(** * Further properties: statements *)

Import StreamFacts TextFacts Utf8Facts RoundTripFacts HexMoreFacts WindowFacts SendFacts.

(** X9. The hexadecimal rendering of two chunks one after the other is
    the rendering of the joined chunk, and every byte takes three
    characters. *)
Theorem bytes_to_hex_app :
  forall a b : bytes,
    bytes_to_hex (a ++ b) = bytes_to_hex a ++ bytes_to_hex b
    /\ length (bytes_to_hex a) = (3 * length a)%nat.
Proof.
  intros a b. rewrite !bytes_to_hex_flat, flat_map_app. split; [reflexivity|].
  induction a as [|x a IH]; [reflexivity|].
  cbn [flat_map]. rewrite length_app, IH. cbn [length format_02X app lit map
    list_ascii_of_string]. lia.
Qed.

(** X10. Two byte sequences with the same hexadecimal rendering are the
    same sequence. *)
Theorem bytes_to_hex_injective :
  forall a b : bytes, bytes_to_hex a = bytes_to_hex b -> a = b.
Proof.
  intros a b H.
  rewrite <- (parse_pairs_format a), <- (parse_pairs_format b).
  rewrite <- !filter_bytes_to_hex, H. reflexivity.
Qed.

Lemma bytes_to_hex_injective_witness :
  bytes_to_hex [xab] = bytes_to_hex [xab] /\ [xab] = [xab].
Proof.
  assert (H : bytes_to_hex [xab] = bytes_to_hex [xab]) by reflexivity.
  split; [exact H | exact (bytes_to_hex_injective [xab] [xab] H)].
Defined.

(** X11. [hex_to_bytes] does not tell lower-case digits from upper-case
    ones: with the letters [a] to [f] of the input put in upper case it
    returns the same bytes. *)
Theorem hex_to_bytes_case_insensitive :
  forall s : str, hex_to_bytes (map upper_hex s) = hex_to_bytes s.
Proof.
  intros s. rewrite !hex_to_bytes_refines. unfold hex_to_bytes_spec.
  rewrite filter_map_upper, pad_odd_map_upper, parse_pairs_map_upper. reflexivity.
Qed.

(** X12. [hex_to_bytes] returns one byte for every two hexadecimal
    digits of its input, a last single digit counting for two. *)
Theorem hex_to_bytes_length :
  forall s : str,
    exists data,
      hex_to_bytes s = Ok data
      /\ length data = Nat.div2 (length (re_sub_non_hex s) + 1).
Proof.
  intros s. exists (hex_to_bytes_spec s). split; [apply hex_to_bytes_refines|].
  unfold hex_to_bytes_spec, re_sub_non_hex.
  now rewrite length_parse_pairs, div2_pad_odd.
Qed.

(** X13. When the first of two strings holds an even number of
    hexadecimal digits, parsing the two strings joined gives the bytes
    of the first followed by the bytes of the second. *)
Theorem hex_to_bytes_app :
  forall s1 s2 : str,
    Nat.even (length (re_sub_non_hex s1)) = true ->
    exists d1 d2,
      hex_to_bytes s1 = Ok d1
      /\ hex_to_bytes s2 = Ok d2
      /\ hex_to_bytes (s1 ++ s2) = Ok (d1 ++ d2).
Proof.
  intros s1 s2 Hev. unfold re_sub_non_hex in Hev.
  exists (hex_to_bytes_spec s1), (hex_to_bytes_spec s2).
  rewrite !hex_to_bytes_refines. repeat split.
  unfold hex_to_bytes_spec. rewrite filter_app.
  rewrite (pad_odd_app _ _ Hev), (parse_pairs_app _ _ Hev).
  now rewrite (pad_odd_of_even _ Hev).
Qed.

Lemma hex_to_bytes_app_witness :
  Nat.even (length (re_sub_non_hex (lit "AA "))) = true
  /\ exists d1 d2,
       hex_to_bytes (lit "AA ") = Ok d1
       /\ hex_to_bytes (lit "BBC") = Ok d2
       /\ hex_to_bytes (lit "AA " ++ lit "BBC") = Ok (d1 ++ d2).
Proof.
  assert (H : Nat.even (length (re_sub_non_hex (lit "AA "))) = true) by reflexivity.
  split; [exact H | exact (hex_to_bytes_app (lit "AA ") (lit "BBC") H)].
Defined.

Section FurtherHandler.
Context {tables : GbkTables}.

(** X1. On a handler as the class keeps it, the texts of any run of
    non-final [decode] calls, put together, are the text of one call on
    the chunks joined, and the handler ends in the same state. *)
Theorem decode_all_concat :
  forall (h : EncodingHandler) (chunks : list bytes),
    well_kept h ->
    decode_all h chunks = Handler.decode h (concat chunks) false.
Proof. intros h chunks Hk. now apply decode_all_is_decode. Qed.

(** X2. An empty chunk: a non-final call returns the empty text and
    leaves the handler as it was; a final call returns the empty text
    and leaves nothing held. *)
Theorem decode_empty :
  forall h : EncodingHandler,
    well_kept h ->
    Handler.decode h [] false = (Ok [], h)
    /\ Handler.decode h [] true = (Ok [], with_carry h []).
Proof.
  intros h Hk. split; [now apply decode_empty_chunk|].
  destruct Hk as [Herr Hu].
  apply decode_returns. rewrite Herr, app_nil_r.
  apply buffer_decode_final with (rest := carry h).
  now apply unresolved_decodes_to_nothing.
Qed.

(** X3. [decode] makes no more characters than it has bytes: the
    characters returned and the bytes still held are together no more
    than the bytes held before and the bytes of the chunk. *)
Theorem decode_length_bound :
  forall (h : EncodingHandler) (data : bytes) (final : bool) (text : str)
         (h' : EncodingHandler),
    well_kept h ->
    Handler.decode h data final = (Ok text, h') ->
    (length text + length (carry h') <= length (carry h) + length data)%nat.
Proof.
  intros h data final text h' Hk Hd.
  destruct (decode_well_kept h data final Hk) as (t & r & B & D).
  rewrite D in Hd. injection Hd as <- <-.
  apply buffer_decode_length in B. rewrite length_app in B. exact B.
Qed.

(** X4. The text a UTF-8 handler returns holds Unicode scalar values
    only: no surrogate, nothing past U+10FFFF. *)
Theorem utf8_decode_scalar_values :
  forall (h : EncodingHandler) (data : bytes) (final : bool) (text : str)
         (h' : EncodingHandler),
    well_kept h ->
    active_codec h = Utf8 ->
    Handler.decode h data final = (Ok text, h') ->
    Forall is_scalar text.
Proof.
  intros h data final text h' Hk Hc Hd.
  destruct (decode_well_kept h data final Hk) as (t & r & B & D).
  rewrite D in Hd. injection Hd as <- <-.
  rewrite Hc in B. now apply utf8_text_scalar in B.
Qed.

(** X5. Bytes below 0x80 given to a handler that holds nothing come out
    as the characters of the same numbers, under either encoding,
    final call or not, and nothing is held after. *)
Theorem decode_ascii :
  forall (h : EncodingHandler) (data : bytes) (final : bool),
    well_kept h ->
    carry h = [] ->
    Forall (fun b => byte.unsigned b < 0x80) data ->
    Handler.decode h data final = (Ok (map byte.unsigned data), h).
Proof.
  intros h data final [Herr _] Hc Ha.
  rewrite (decode_returns h data final (map byte.unsigned data) []).
  - rewrite <- Hc. now rewrite with_carry_same.
  - rewrite Hc. cbn [app]. now apply ascii_buffer_decode.
Qed.

(** X6. What [text_to_bytes] makes of a text of scalar values under
    UTF-8, a UTF-8 handler that holds nothing decodes to that text,
    and holds nothing after. *)
Theorem utf8_text_round_trip :
  forall (name : string) (text : str),
    lookup name = Ok Utf8 ->
    Forall is_scalar text ->
    exists data,
      text_to_bytes text name = Ok data
      /\ forall (h : EncodingHandler) (final : bool),
           well_kept h -> carry h = [] -> active_codec h = Utf8 ->
           Handler.decode h data final = (Ok text, h).
Proof.
  intros name text Hn Hs.
  destruct (utf8_encode_then_decode text Hs) as (data & He & Hd).
  exists data. split; [now apply (text_to_bytes_strict text name Utf8)|].
  intros h final [Herr _] Hc Hu.
  rewrite (decode_returns h data final text []).
  - rewrite <- Hc. now rewrite with_carry_same.
  - rewrite Hc, Hu. cbn [app]. apply Hd.
Qed.

(** X7. Under either supported encoding, [text_to_bytes] sends a text
    of characters below U+0080 as the bytes of the same numbers, and a
    handler that holds nothing decodes those bytes to the text. *)
Theorem ascii_text_round_trip :
  forall (name : string) (c : codec) (text : str),
    lookup name = Ok c ->
    Forall (fun ch => 0 <= ch < 0x80) text ->
    text_to_bytes text name = Ok (map byte.of_Z text)
    /\ forall (h : EncodingHandler) (final : bool),
         well_kept h -> carry h = [] ->
         Handler.decode h (map byte.of_Z text) final = (Ok text, h).
Proof.
  intros name c text Hn Ha. split.
  - apply (text_to_bytes_strict text name c); [exact Hn|].
    now apply ascii_encode_loop.
  - intros h final [Herr _] Hc.
    assert (Hsmall : forall ch, In ch text -> 0 <= ch < 256).
    { intros ch Hin. rewrite Forall_forall in Ha. specialize (Ha ch Hin). lia. }
    assert (Hback : map byte.unsigned (map byte.of_Z text) = text).
    { rewrite map_map. rewrite <- (map_id text) at 2. apply map_ext_in.
      intros ch Hin. apply unsigned_small. now apply Hsmall. }
    rewrite (decode_returns h (map byte.of_Z text) final text []).
    + rewrite <- Hc. now rewrite with_carry_same.
    + rewrite Hc. cbn [app]. rewrite ascii_buffer_decode; [now rewrite Hback|].
      apply Forall_forall. intros b Hb. apply in_map_iff in Hb.
      destruct Hb as (ch & <- & Hin). rewrite Forall_forall in Ha.
      specialize (Ha ch Hin). rewrite unsigned_small; lia.
Qed.

(** X8. Under a supported encoding, the bytes of two texts joined are
    the bytes of the first followed by the bytes of the second. *)
Theorem text_to_bytes_app :
  forall (name : string) (c : codec) (a b : str),
    lookup name = Ok c ->
    exists da db,
      text_to_bytes a name = Ok da
      /\ text_to_bytes b name = Ok db
      /\ text_to_bytes (a ++ b) name = Ok (da ++ db).
Proof.
  intros name c a b Hn.
  exists (flat_map (encode_or_substitute c) a), (flat_map (encode_or_substitute c) b).
  rewrite !(text_to_bytes_flat _ name c Hn), flat_map_app. repeat split.
Qed.

End FurtherHandler.

Module LoopbackFacts.
Import Hex HexFacts HexMoreFacts.

Lemma hex_to_bytes_of_rendering (b : bytes) : hex_to_bytes (bytes_to_hex b) = Ok b.
Proof.
  rewrite hex_to_bytes_refines. unfold hex_to_bytes_spec.
  rewrite filter_bytes_to_hex, pad_odd_of_even, parse_pairs_format; [reflexivity|].
  rewrite length_flat_format. apply Nat.even_spec. now exists (length b).
Qed.

Lemma rendering_nonempty (b : bytes) : b <> [] -> bytes_to_hex b <> [].
Proof.
  intros Hb H. apply (f_equal (@length Z)) in H.
  rewrite bytes_to_hex_flat in H. destruct b as [|x b]; [congruence|].
  cbn [flat_map] in H. rewrite length_app in H. cbn in H. lia.
Qed.

End LoopbackFacts.

Section FurtherWindow.
Context {tables : GbkTables}.
Import Window LoopbackFacts.

(** X14. The handler of the window is always one that ignores errors
    and holds an unresolved tail: [__init__] builds such a handler and
    every slot keeps it so; and on such a window [_on_data_received]
    returns a text for every chunk. *)
Theorem window_handler_well_kept :
  (forall w, Window.init = Ok w -> well_kept (_encoding_handler w))
  /\ (forall w : MainWindow,
        well_kept (_encoding_handler w) ->
        (forall data,
           well_kept (_encoding_handler (snd (_on_data_received w data)))
           /\ exists text, fst (_on_data_received w data) = Ok text)
        /\ (forall mode,
              well_kept (_encoding_handler (snd (_on_receive_mode_changed w mode))))
        /\ (forall coding,
              well_kept (_encoding_handler (snd (_on_receive_coding_changed w coding))))
        /\ well_kept (_encoding_handler (snd (_close_serial_port w)))).
Proof.
  split.
  - intros w Hw. unfold Window.init in Hw.
    destruct (Handler.init "gbk") as [h|e] eqn:Hi; [|discriminate].
    cbn in Hw. injection Hw as <-. cbn [_encoding_handler].
    now apply init_well_kept in Hi.
  - intros w Hk. split; [|split; [|split]].
    + intros data. unfold _on_data_received.
      destruct (str_eqb (_receive_mode w) HEX_MODE);
        [cbn [fst snd]; split; [exact Hk | eauto]|].
      destruct (decode_well_kept (_encoding_handler w) data false Hk)
        as (text & rest & B & D).
      pose proof (decode_keeps_well_kept (_encoding_handler w) data Hk) as K.
      rewrite D in *. cbn [fst snd set_handler _encoding_handler] in *.
      split; [exact K | eauto].
    + intros mode. unfold _on_receive_mode_changed. cbn [_encoding_handler].
      pose proof (reset_keeps_well_kept (_encoding_handler w) Hk) as K.
      destruct (Handler.reset (_encoding_handler w)) as [r h]. exact K.
    + intros coding. unfold _on_receive_coding_changed. cbn [_encoding_handler].
      pose proof (set_encoding_keeps_well_kept (_encoding_handler w)
                    (remove_hyphens (lower coding)) Hk) as K.
      destruct (Handler.set_encoding (_encoding_handler w)
                  (remove_hyphens (lower coding))) as [[u|e] h]; cbn [snd] in K.
      * pose proof (reset_keeps_well_kept h K) as K2.
        destruct (Handler.reset h) as [r h']. exact K2.
      * exact K.
    + unfold _close_serial_port.
      pose proof (reset_keeps_well_kept (_encoding_handler w) Hk) as K.
      destruct (Handler.reset (_encoding_handler w)) as [r h]. exact K.
Qed.

(** X15. What the window inserts for a run of chunks, put together, is
    what it inserts for the chunks joined, in hexadecimal mode and in
    text mode alike, and the window ends in the same state. *)
Theorem receive_all_concat :
  forall (w : MainWindow) (chunks : list bytes),
    well_kept (_encoding_handler w) ->
    receive_all w chunks = _on_data_received w (concat chunks).
Proof.
  intros w chunks Hk.
  destruct (str_eqb (_receive_mode w) HEX_MODE) eqn:Hm.
  - rewrite (receive_all_hex w chunks Hm). unfold _on_data_received.
    now rewrite Hm.
  - rewrite (receive_all_text chunks w Hm), (decode_all_is_decode chunks _ Hk).
    unfold _on_data_received. rewrite Hm.
    destruct (Handler.decode (_encoding_handler w) (concat chunks) false).
    reflexivity.
Qed.

(** X16. Choosing an entry of the receive-coding box, ['GBK'] or
    ['UTF-8'], leaves the window with a newly built handler of that
    encoding, nothing held, also when the entry is the current one. *)
Theorem coding_changed_builds_handler :
  forall (w : MainWindow) (coding : string),
    coding = "GBK"%string \/ coding = "UTF-8"%string ->
    exists c,
      lookup coding = Ok c
      /\ _on_receive_coding_changed w coding
         = (Ok tt,
            {| _encoding_handler := fresh (remove_hyphens (lower coding)) c;
               _receive_mode := _receive_mode w;
               _receive_coding := coding;
               _send_mode := _send_mode w;
               _send_coding := _send_coding w |}).
Proof.
  intros w coding Hc.
  assert (H : exists c, lookup coding = Ok c
                        /\ lookup (remove_hyphens (lower coding)) = Ok c).
  { destruct Hc as [->| ->]; [exists Gbk | exists Utf8]; split; reflexivity. }
  destruct H as (c & Hl & Hl'). exists c. split; [exact Hl|].
  unfold _on_receive_coding_changed. cbn [_encoding_handler].
  destruct (set_then_reset (_encoding_handler w) _ c Hl') as (h1 & -> & ->).
  reflexivity.
Qed.

(** X17. With a send coding of the box, [_on_send_clicked] does not
    raise; it writes nothing when the port is closed or the text is
    empty, and otherwise writes once: the bytes [hex_to_bytes] reads in
    hexadecimal mode, the bytes [text_to_bytes] makes in text mode. *)
Theorem send_clicked_writes :
  forall (w : MainWindow) (is_open : bool) (text : str) (c : codec),
    lookup (_send_coding w) = Ok c ->
    (is_open = false \/ text = [] -> _on_send_clicked w is_open text = Ok None)
    /\ (is_open = true -> text <> [] ->
        exists data,
          _on_send_clicked w is_open text = Ok (Some data)
          /\ (if str_eqb (_send_mode w) HEX_MODE
              then Hex.hex_to_bytes text
              else text_to_bytes text (_send_coding w)) = Ok data).
Proof.
  intros w is_open text c Hc. unfold _on_send_clicked. split.
  - intros [-> | ->]; [reflexivity | destruct is_open; reflexivity].
  - intros -> Hne. cbn [negb]. destruct text as [|ch text]; [congruence|].
    destruct (str_eqb (_send_mode w) HEX_MODE).
    + rewrite HexFacts.hex_to_bytes_refines. cbn [bind]. eauto.
    + rewrite (text_to_bytes_flat _ _ c Hc). cbn [bind]. eauto.
Qed.

(** X18. A text of scalar values sent in text mode under UTF-8 and
    received by a window in text mode whose UTF-8 handler holds nothing
    is inserted as it was typed. *)
Theorem window_utf8_loopback :
  forall (ws wr : MainWindow) (text : str),
    str_eqb (_send_mode ws) HEX_MODE = false ->
    lookup (_send_coding ws) = Ok Utf8 ->
    text <> [] ->
    Forall is_scalar text ->
    str_eqb (_receive_mode wr) HEX_MODE = false ->
    well_kept (_encoding_handler wr) ->
    carry (_encoding_handler wr) = [] ->
    active_codec (_encoding_handler wr) = Utf8 ->
    exists data,
      _on_send_clicked ws true text = Ok (Some data)
      /\ _on_data_received wr data = (Ok text, wr).
Proof.
  intros ws wr text Hsm Hsc Hne Hs Hrm Hk Hc Hu.
  destruct (utf8_encode_then_decode text Hs) as (data & He & Hd).
  exists data. split.
  - unfold _on_send_clicked. cbn [negb]. destruct text as [|ch text]; [congruence|].
    rewrite Hsm, (text_to_bytes_strict _ _ Utf8 data Hsc He). reflexivity.
  - unfold _on_data_received. rewrite Hrm.
    rewrite (decode_returns (_encoding_handler wr) data false text []).
    + rewrite <- Hc, with_carry_same. now rewrite set_handler_same.
    + rewrite Hc, Hu. cbn [app]. apply Hd.
Qed.

(** X19. The hexadecimal text the window shows for a non-empty chunk,
    typed back and sent in hexadecimal mode, writes that chunk. *)
Theorem window_hex_loopback :
  forall (ws wr : MainWindow) (b : bytes),
    b <> [] ->
    str_eqb (_send_mode ws) HEX_MODE = true ->
    str_eqb (_receive_mode wr) HEX_MODE = true ->
    _on_data_received wr b = (Ok (Hex.bytes_to_hex b), wr)
    /\ _on_send_clicked ws true (Hex.bytes_to_hex b) = Ok (Some b).
Proof.
  intros ws wr b Hb Hs Hr. split.
  - unfold _on_data_received. now rewrite Hr.
  - unfold _on_send_clicked. cbn [negb].
    pose proof (rendering_nonempty b Hb) as Hne.
    destruct (Hex.bytes_to_hex b) as [|ch t] eqn:E; [congruence|].
    rewrite Hs, <- E, hex_to_bytes_of_rendering. reflexivity.
Qed.

(** X20. Changing the receive mode, to either mode, and closing the
    port reset the handler: with a supported encoding the handler is a
    new one and the bytes it held are gone. *)
Theorem mode_change_resets_handler :
  forall (w : MainWindow) (mode : str) (c : codec),
    lookup (_encoding (_encoding_handler w)) = Ok c ->
    let h' := {| _encoding := _encoding (_encoding_handler w);
                 _decoder := {| dec_codec := c; dec_errors := Ignore;
                                dec_buffer := [] |} |} in
    _on_receive_mode_changed w mode
    = (Ok tt,
       {| _encoding_handler := h';
          _receive_mode := if str_eqb mode HEX_MODE then HEX_MODE else TEXT_MODE;
          _receive_coding := _receive_coding w;
          _send_mode := _send_mode w;
          _send_coding := _send_coding w |})
    /\ _close_serial_port w = (Ok tt, set_handler w h')
    /\ carry h' = [].
Proof.
  intros w mode c Hc h'.
  destruct (reset_cases (_encoding_handler w)) as [(c' & Hc' & Hr)|(e & He & _)];
    [|congruence].
  rewrite Hc in Hc'. injection Hc' as <-.
  unfold _on_receive_mode_changed, _close_serial_port. cbn [_encoding_handler].
  rewrite Hr. repeat split.
Qed.

End FurtherWindow.

Module InverseFacts.
Import LoopFacts CodecFacts HexFacts TextFacts Utf8Facts RoundTripFacts EncodeFacts.
Section Facts.
Context {tables : GbkTables}.

Lemma of_Z_eq (v : Z) (b : byte) : v = byte.unsigned b -> byte.of_Z v = b.
Proof. intros ->. apply byte.of_Z_unsigned. Qed.

(** The encoder writes, for what [utf8_decode] read, the bytes read. *)
Lemma utf8_decode_encode_step (s : bytes) (ch : Z) (n : nat) :
  UTF8.utf8_decode s = UTF8.Decoded ch n ->
  UTF8.encode_step ch = Some (firstn n s).
Proof.
  intros Hd. pose proof (utf8_decode_scalar s ch n Hd) as [[Hr Hs] Hn].
  revert Hd Hn.
  unfold UTF8.utf8_decode, UTF8.IS_CONTINUATION_BYTE, UTF8.encode_step,
    UTF8.IS_SURROGATE, utf8_layout_length.
  rewrite ?shr6, ?shr12, ?shr18, ?land_3f.
  pose proof (Z.div_mod ch 64 ltac:(lia)) as E1.
  pose proof (Z.mod_pos_bound ch 64 ltac:(lia)) as B1.
  pose proof (Z.div_mod (ch / 64) 64 ltac:(lia)) as E2.
  pose proof (Z.mod_pos_bound (ch / 64) 64 ltac:(lia)) as B2.
  pose proof (Z.div_mod (ch / 64 / 64) 64 ltac:(lia)) as E3.
  pose proof (Z.mod_pos_bound (ch / 64 / 64) 64 ltac:(lia)) as B3.
  revert E1 B1 E2 B2 E3 B3.
  generalize (ch / 64 / 64 / 64), ((ch / 64 / 64) mod 64).
  generalize (ch / 64 / 64), ((ch / 64) mod 64).
  generalize (ch / 64), (ch mod 64).
  intros q1 r1 q2 r2 q3 r3 E1 B1 E2 B2 E3 B3.
  replace ((0xD800 <=? ch) && (ch <=? 0xDFFF)) with false
    by (symmetry; apply andb_false_iff;
        destruct Hs; [left; apply Z.leb_gt | right; apply Z.leb_gt]; lia).
  destruct s as [|b0 [|b1 [|b2 [|b3 s]]]]; try discriminate;
    try pose proof (byte_range b0); try pose proof (byte_range b1);
    try pose proof (byte_range b2); try pose proof (byte_range b3);
    rewrite ?shl6, ?shl12, ?shl18;
    repeat split_cmp; try discriminate;
    intros E Hn; injection E as E En; subst n; try lia;
    cbn [firstn]; repeat f_equal; apply of_Z_eq;
    rewrite ?lor_c0, ?lor_e0, ?lor_f0, ?lor_80 by lia; lia.
Qed.

(** What the strict decoder accepts, the strict encoder sends back. *)
Lemma utf8_strict_decode_encode (s : bytes) :
  forall text rest,
    buffer_decode Utf8 Strict true s = Ok (text, rest) ->
    rest = [] /\ encode_loop Utf8 Strict text = Ok s.
Proof.
  remember (length s) as m eqn:Hm. revert s Hm.
  induction m as [m IH] using lt_wf_ind. intros s Hm text rest H.
  destruct s as [|b s].
  - cbn in H. injection H as <- <-. split; reflexivity.
  - unfold buffer_decode in H.
    rewrite (run_cons _ _ (decode_step_progress Utf8 true)) in H.
    cbn [decode_step] in H.
    destruct (UTF8.step true (b :: s)) as [cp n|n|] eqn:Hs; [|discriminate|].
    + assert (Hn : (1 <= n <= length (b :: s))%nat)
        by (eapply utf8_step_progress; [discriminate | left; eauto]).
      pose proof (length_skipn_lt n b s (proj1 Hn)) as Hlt.
      destruct (run_loop (UTF8.step true) Strict (skipn n (b :: s)))
        as [[x r]|e] eqn:Hr; [|discriminate].
      cbn in H. injection H as <- <-.
      destruct (IH (length (skipn n (b :: s))) ltac:(cbn [length] in Hm; lia)
                  (skipn n (b :: s)) eq_refl x r Hr) as [-> He].
      split; [reflexivity|].
      assert (Hd : UTF8.utf8_decode (b :: s) = UTF8.Decoded cp n).
      { revert Hs. unfold UTF8.step.
        destruct (UTF8.utf8_decode (b :: s)) as [ch k| | |k]; try discriminate.
        - intros E. injection E as <- <-. reflexivity.
        - destruct k as [|[|k]]; discriminate. }
      cbn [encode_loop encode_step].
      rewrite (utf8_decode_encode_step _ _ _ Hd), He. cbn [bind].
      now rewrite firstn_skipn.
    + revert Hs. unfold UTF8.step.
      destruct (UTF8.utf8_decode (b :: s)) as [ch k| | |k]; try discriminate.
      destruct k as [|[|k]]; discriminate.
Qed.

(** What a non-final UTF-8 call holds: a lead byte and at most two
    continuation bytes. *)
Lemma utf8_held_shape (s : bytes) :
  UTF8.step false s = Incomplete ->
  s = []
  \/ exists b rest,
       s = b :: rest
       /\ 0xC2 <= byte.unsigned b <= 0xF4
       /\ (length rest <= 2)%nat
       /\ Forall (fun x => 0x80 <= byte.unsigned x <= 0xBF) rest.
Proof.
  unfold UTF8.step, UTF8.utf8_decode, UTF8.truncated_surrogate,
    UTF8.IS_CONTINUATION_BYTE.
  destruct s as [|b0 [|b1 [|b2 [|b3 s]]]]; [now left| | | |];
    cbn [negb andb length];
    repeat split_cmp; try discriminate; intros _; right;
    eexists _, _; (split; [reflexivity|]);
    (split; [lia|]); (split; [cbn [length]; lia|]);
    repeat constructor; lia.
Qed.

Lemma gbk_held_shape (s : bytes) :
  GBK.step false s = Incomplete ->
  s = [] \/ exists b, s = [b] /\ 0x80 <= byte.unsigned b.
Proof.
  unfold GBK.step. destruct s as [|b0 s]; [now left|].
  split_cmp; [discriminate|].
  destruct s as [|b1 s]; [intros _; right; eauto|].
  destruct (GBK.GBK_DECODE _ _); discriminate.
Qed.

Lemma encode_or_substitute_length (c : codec) (ch : Z) :
  (length (encode_or_substitute c ch) <= match c with Utf8 => 4 | Gbk => 2 end)%nat.
Proof.
  unfold encode_or_substitute. destruct c; cbn [encode_step].
  - unfold UTF8.encode_step.
    repeat split_cmp; destruct (UTF8.IS_SURROGATE ch); cbn [length]; lia.
  - unfold GBK.encode_step. repeat split_cmp; try (cbn [length]; lia).
    destruct (GBK.GBK_ENCODE ch); cbn [length]; lia.
Qed.

End Facts.
End InverseFacts.

Section FurtherCodec.
Context {tables : GbkTables}.
Import InverseFacts.

(** X21. What a handler holds after a non-final call: under GBK nothing
    or one byte of 0x80 or more; under UTF-8 nothing or a lead byte
    (C2 to F4) followed by at most two continuation bytes. *)
Theorem held_bytes_shape :
  forall (h : EncodingHandler) (data : bytes) (text : str) (h' : EncodingHandler),
    well_kept h ->
    Handler.decode h data false = (Ok text, h') ->
    carry h' = []
    \/ match active_codec h with
       | Gbk => exists b, carry h' = [b] /\ 0x80 <= byte.unsigned b
       | Utf8 =>
         exists b rest,
           carry h' = b :: rest
           /\ 0xC2 <= byte.unsigned b <= 0xF4
           /\ (length rest <= 2)%nat
           /\ Forall (fun x => 0x80 <= byte.unsigned x <= 0xBF) rest
       end.
Proof.
  intros h data text h' Hk Hd.
  destruct (decode_well_kept h data false Hk) as (t & r & B & D).
  rewrite D in Hd. injection Hd as <- <-.
  apply buffer_decode_rest in B. destruct B as (_ & [->|Hu] & _); [now left|].
  change (carry (with_carry h r)) with r.
  destruct (active_codec h); cbn [decode_step] in Hu.
  - destruct (utf8_held_shape r Hu) as [->|Hs]; [now left | now right].
  - destruct (gbk_held_shape r Hu) as [->|Hs]; [now left | now right].
Qed.

(** X22. [text_to_bytes] writes at most four bytes for a character
    under UTF-8 and at most two under GBK. *)
Theorem text_to_bytes_length_bound :
  forall (name : string) (c : codec) (text : str),
    lookup name = Ok c ->
    exists data,
      text_to_bytes text name = Ok data
      /\ (length data
          <= match c with Utf8 => 4 | Gbk => 2 end * length text)%nat.
Proof.
  intros name c text Hn. exists (flat_map (encode_or_substitute c) text).
  split; [exact (text_to_bytes_flat text name c Hn)|].
  induction text as [|ch text IH]; [cbn; lia|].
  cbn [flat_map]. rewrite length_app. cbn [length].
  pose proof (encode_or_substitute_length c ch). lia.
Qed.

(** X23. Bytes that the runtime's strict UTF-8 decoder accepts lose
    nothing on the way through: [text_to_bytes] of their text is those
    bytes, and a UTF-8 handler that holds nothing returns that text
    for them. *)
Theorem utf8_bytes_round_trip :
  forall (name : string) (data : bytes) (text : str),
    lookup name = Ok Utf8 ->
    bytes_decode data name Strict = Ok text ->
    text_to_bytes text name = Ok data
    /\ forall (h : EncodingHandler) (final : bool),
         well_kept h -> carry h = [] -> active_codec h = Utf8 ->
         Handler.decode h data final = (Ok text, h).
Proof.
  intros name data text Hn Hb. unfold bytes_decode in Hb. rewrite Hn in Hb.
  cbn [bind] in Hb.
  destruct (buffer_decode Utf8 Strict true data) as [[t r]|e] eqn:Hs; [|discriminate].
  cbn in Hb. injection Hb as ->.
  pose proof (utf8_text_scalar _ _ _ _ _ Hs) as Hsc.
  destruct (utf8_strict_decode_encode data text r Hs) as [-> He].
  split; [now apply (text_to_bytes_strict text name Utf8)|].
  intros h final [Herr _] Hc Hu.
  destruct (utf8_encode_then_decode text Hsc) as (data' & He' & Hd).
  rewrite He in He'. injection He' as <-.
  rewrite (decode_returns h data final text []).
  - rewrite <- Hc. now rewrite with_carry_same.
  - rewrite Hc, Hu. cbn [app]. apply Hd.
Qed.

End FurtherCodec.

(** ** The further properties at concrete inputs *)

Lemma holding_e6_well_kept : well_kept holding_e6.
Proof. split; [reflexivity | right; reflexivity]. Qed.

Lemma decode_all_concat_witness :
  well_kept holding_e6
  /\ decode_all holding_e6 [[xb5]; []; [x8b; xe8; xaf]; [x95; x41]]
     = Handler.decode holding_e6 (concat [[xb5]; []; [x8b; xe8; xaf]; [x95; x41]]) false.
Proof.
  split; [exact holding_e6_well_kept|].
  exact (decode_all_concat holding_e6 _ holding_e6_well_kept).
Defined.

Lemma decode_empty_witness :
  well_kept holding_e6
  /\ Handler.decode holding_e6 [] false = (Ok [], holding_e6)
  /\ Handler.decode holding_e6 [] true = (Ok [], with_carry holding_e6 []).
Proof.
  split; [exact holding_e6_well_kept|].
  exact (decode_empty holding_e6 holding_e6_well_kept).
Defined.

Lemma decode_length_bound_witness :
  well_kept holding_e6
  /\ Handler.decode holding_e6 [xb5; x8b; xff; xe8] false
     = (Ok [0x6D4B], with_carry holding_e6 [xe8])
  /\ (length [0x6D4B%Z] + length (carry (with_carry holding_e6 [xe8]))
      <= length (carry holding_e6) + length [xb5; x8b; xff; xe8])%nat.
Proof.
  assert (H : Handler.decode holding_e6 [xb5; x8b; xff; xe8] false
              = (Ok [0x6D4B], with_carry holding_e6 [xe8])) by reflexivity.
  split; [exact holding_e6_well_kept|]. split; [exact H|].
  exact (decode_length_bound holding_e6 _ false _ _ holding_e6_well_kept H).
Defined.

Lemma utf8_decode_scalar_values_witness :
  well_kept holding_e6
  /\ active_codec holding_e6 = Utf8
  /\ Handler.decode holding_e6 [xb5; x8b; xed; xa0; x80; x41] true
     = (Ok [0x6D4B; 65], with_carry holding_e6 [])
  /\ Forall is_scalar [0x6D4B; 65].
Proof.
  assert (H : Handler.decode holding_e6 [xb5; x8b; xed; xa0; x80; x41] true
              = (Ok [0x6D4B; 65], with_carry holding_e6 [])) by reflexivity.
  split; [exact holding_e6_well_kept|]. split; [reflexivity|]. split; [exact H|].
  exact (utf8_decode_scalar_values holding_e6 _ true _ _
           holding_e6_well_kept eq_refl H).
Defined.

Lemma decode_ascii_witness :
  well_kept (fresh "gbk" Gbk)
  /\ carry (fresh "gbk" Gbk) = []
  /\ Forall (fun b => byte.unsigned b < 0x80) [x41; x0a]
  /\ Handler.decode (fresh "gbk" Gbk) [x41; x0a] false
     = (Ok (map byte.unsigned [x41; x0a]), fresh "gbk" Gbk).
Proof.
  assert (H : Forall (fun b => byte.unsigned b < 0x80) [x41; x0a])
    by (repeat constructor).
  split; [apply fresh_well_kept|]. split; [reflexivity|]. split; [exact H|].
  exact (decode_ascii (fresh "gbk" Gbk) _ false (fresh_well_kept "gbk" Gbk) eq_refl H).
Defined.

Lemma scalar_sample : Forall is_scalar [0x6D4B; 0x1F600; 65].
Proof. repeat constructor; unfold is_scalar; lia. Qed.

Lemma utf8_text_round_trip_witness :
  lookup "UTF-8" = Ok Utf8
  /\ Forall is_scalar [0x6D4B; 0x1F600; 65]
  /\ exists data,
       text_to_bytes [0x6D4B; 0x1F600; 65] "UTF-8" = Ok data
       /\ forall (h : EncodingHandler) (final : bool),
            well_kept h -> carry h = [] -> active_codec h = Utf8 ->
            Handler.decode h data final = (Ok [0x6D4B; 0x1F600; 65], h).
Proof.
  split; [reflexivity|]. split; [exact scalar_sample|].
  exact (utf8_text_round_trip "UTF-8" _ eq_refl scalar_sample).
Defined.

Lemma ascii_sample : Forall (fun ch => 0 <= ch < 0x80) [65; 84; 13].
Proof. repeat constructor; lia. Qed.

Lemma ascii_text_round_trip_witness :
  lookup "GBK" = Ok Gbk
  /\ Forall (fun ch => 0 <= ch < 0x80) [65; 84; 13]
  /\ text_to_bytes [65; 84; 13] "GBK" = Ok (map byte.of_Z [65; 84; 13])
  /\ forall (h : EncodingHandler) (final : bool),
       well_kept h -> carry h = [] ->
       Handler.decode h (map byte.of_Z [65; 84; 13]) final = (Ok [65; 84; 13], h).
Proof.
  split; [reflexivity|]. split; [exact ascii_sample|].
  exact (ascii_text_round_trip "GBK" Gbk _ eq_refl ascii_sample).
Defined.

Lemma text_to_bytes_app_witness :
  lookup "gbk" = Ok Gbk
  /\ exists da db,
       text_to_bytes [0x6D4B] "gbk" = Ok da
       /\ text_to_bytes [0x20AC; 65] "gbk" = Ok db
       /\ text_to_bytes ([0x6D4B] ++ [0x20AC; 65]) "gbk" = Ok (da ++ db).
Proof.
  split; [reflexivity|].
  exact (text_to_bytes_app "gbk" Gbk [0x6D4B] [0x20AC; 65] eq_refl).
Defined.

Lemma window_handler_well_kept_witness :
  Window.init = Ok window_at_start
  /\ well_kept (Window._encoding_handler window_at_start)
  /\ well_kept (Window._encoding_handler
                  (snd (Window._on_receive_coding_changed window_at_start "UTF-8")))
  /\ exists text, fst (Window._on_data_received window_utf8_text [xe6; xb5]) = Ok text.
Proof.
  assert (H0 : Window.init = Ok window_at_start) by reflexivity.
  pose proof (proj1 window_handler_well_kept window_at_start H0) as H1.
  assert (H2 : well_kept (Window._encoding_handler window_utf8_text))
    by apply fresh_well_kept.
  split; [exact H0|]. split; [exact H1|]. split.
  - exact (proj1 (proj2 (proj2 (proj2 window_handler_well_kept window_at_start H1)))
             "UTF-8"%string).
  - exact (proj2 (proj1 (proj2 window_handler_well_kept window_utf8_text H2)
                    [xe6; xb5])).
Defined.

Lemma receive_all_concat_witness :
  well_kept (Window._encoding_handler window_utf8_text)
  /\ Window.receive_all window_utf8_text [[xe6]; [xb5; x8b]; [x41]]
     = Window._on_data_received window_utf8_text (concat [[xe6]; [xb5; x8b]; [x41]]).
Proof.
  assert (H : well_kept (Window._encoding_handler window_utf8_text))
    by apply fresh_well_kept.
  split; [exact H | exact (receive_all_concat window_utf8_text _ H)].
Defined.

Lemma coding_changed_builds_handler_witness :
  ("UTF-8" = "GBK" \/ "UTF-8" = "UTF-8")%string
  /\ exists c,
       lookup "UTF-8" = Ok c
       /\ Window._on_receive_coding_changed window_at_start "UTF-8"
          = (Ok tt,
             {| Window._encoding_handler :=
                  fresh (Window.remove_hyphens (lower "UTF-8")) c;
                Window._receive_mode := Window._receive_mode window_at_start;
                Window._receive_coding := "UTF-8";
                Window._send_mode := Window._send_mode window_at_start;
                Window._send_coding := Window._send_coding window_at_start |}).
Proof.
  assert (H : ("UTF-8" = "GBK" \/ "UTF-8" = "UTF-8")%string) by (right; reflexivity).
  split; [exact H | exact (coding_changed_builds_handler window_at_start "UTF-8" H)].
Defined.

Lemma send_clicked_writes_witness :
  lookup (Window._send_coding window_utf8_text) = Ok Utf8
  /\ Window._on_send_clicked window_utf8_text false [0x6D4B] = Ok None
  /\ exists data,
       Window._on_send_clicked window_utf8_text true [0x6D4B] = Ok (Some data)
       /\ (if Window.str_eqb (Window._send_mode window_utf8_text) Window.HEX_MODE
           then Hex.hex_to_bytes [0x6D4B]
           else text_to_bytes [0x6D4B] (Window._send_coding window_utf8_text))
          = Ok data.
Proof.
  assert (H : lookup (Window._send_coding window_utf8_text) = Ok Utf8) by reflexivity.
  assert (Hne : [0x6D4B] <> @nil Z) by discriminate.
  split; [exact H|]. split.
  - exact (proj1 (send_clicked_writes window_utf8_text false [0x6D4B] Utf8 H)
             (or_introl eq_refl)).
  - exact (proj2 (send_clicked_writes window_utf8_text true [0x6D4B] Utf8 H)
             eq_refl Hne).
Defined.

Lemma window_utf8_loopback_witness :
  Forall is_scalar [0x6D4B; 0x1F600; 65]
  /\ exists data,
       Window._on_send_clicked window_utf8_text true [0x6D4B; 0x1F600; 65]
       = Ok (Some data)
       /\ Window._on_data_received window_utf8_text data
          = (Ok [0x6D4B; 0x1F600; 65], window_utf8_text).
Proof.
  assert (Hne : [0x6D4B; 0x1F600; 65] <> @nil Z) by discriminate.
  split; [exact scalar_sample|].
  exact (window_utf8_loopback window_utf8_text window_utf8_text _
           eq_refl eq_refl Hne scalar_sample eq_refl
           (fresh_well_kept "utf8" Utf8) eq_refl eq_refl).
Defined.

Lemma window_hex_loopback_witness :
  [xab; x01] <> []
  /\ Window._on_data_received window_at_start [xab; x01]
     = (Ok (Hex.bytes_to_hex [xab; x01]), window_at_start)
  /\ Window._on_send_clicked window_at_start true (Hex.bytes_to_hex [xab; x01])
     = Ok (Some [xab; x01]).
Proof.
  assert (Hne : [xab; x01] <> []) by discriminate.
  split; [exact Hne|].
  exact (window_hex_loopback window_at_start window_at_start _ Hne eq_refl eq_refl).
Defined.

Lemma mode_change_resets_handler_witness :
  let w := Window.set_handler window_utf8_text (with_carry (fresh "utf8" Utf8) [xe6]) in
  lookup (_encoding (Window._encoding_handler w)) = Ok Utf8
  /\ Window._on_receive_mode_changed w Window.HEX_MODE
     = (Ok tt,
        {| Window._encoding_handler := fresh "utf8" Utf8;
           Window._receive_mode := Window.HEX_MODE;
           Window._receive_coding := "UTF-8";
           Window._send_mode := Window.TEXT_MODE;
           Window._send_coding := "UTF-8" |}).
Proof.
  intros w.
  assert (H : lookup (_encoding (Window._encoding_handler w)) = Ok Utf8) by reflexivity.
  split; [exact H|].
  exact (proj1 (mode_change_resets_handler w Window.HEX_MODE Utf8 H)).
Defined.

Lemma held_bytes_shape_witness :
  well_kept holding_e6
  /\ Handler.decode holding_e6 [xb5; x8b; xf0; x9f] false
     = (Ok [0x6D4B], with_carry holding_e6 [xf0; x9f])
  /\ (carry (with_carry holding_e6 [xf0; x9f]) = []
      \/ exists b rest,
           carry (with_carry holding_e6 [xf0; x9f]) = b :: rest
           /\ 0xC2 <= byte.unsigned b <= 0xF4
           /\ (length rest <= 2)%nat
           /\ Forall (fun x => 0x80 <= byte.unsigned x <= 0xBF) rest).
Proof.
  assert (H : Handler.decode holding_e6 [xb5; x8b; xf0; x9f] false
              = (Ok [0x6D4B], with_carry holding_e6 [xf0; x9f])) by reflexivity.
  split; [exact holding_e6_well_kept|]. split; [exact H|].
  exact (held_bytes_shape holding_e6 _ _ _ holding_e6_well_kept H).
Defined.

Lemma text_to_bytes_length_bound_witness :
  lookup "utf-8" = Ok Utf8
  /\ exists data,
       text_to_bytes [0x1F600; 0xD800; 65] "utf-8" = Ok data
       /\ (length data <= 4 * length [0x1F600%Z; 0xD800%Z; 65%Z])%nat.
Proof.
  split; [reflexivity|].
  exact (text_to_bytes_length_bound "utf-8" Utf8 [0x1F600; 0xD800; 65] eq_refl).
Defined.

Lemma utf8_bytes_round_trip_witness :
  lookup "utf8" = Ok Utf8
  /\ bytes_decode [xe6; xb5; x8b; x41] "utf8" Strict = Ok [0x6D4B; 65]
  /\ text_to_bytes [0x6D4B; 65] "utf8" = Ok [xe6; xb5; x8b; x41]
  /\ forall (h : EncodingHandler) (final : bool),
       well_kept h -> carry h = [] -> active_codec h = Utf8 ->
       Handler.decode h [xe6; xb5; x8b; x41] final = (Ok [0x6D4B; 65], h).
Proof.
  assert (H : bytes_decode [xe6; xb5; x8b; x41] "utf8" Strict = Ok [0x6D4B; 65])
    by reflexivity.
  split; [reflexivity|]. split; [exact H|].
  exact (utf8_bytes_round_trip "utf8" _ _ eq_refl H).
Defined.
